(** * Range-partitioned Slurm submission driver: a shallow embedding

    The development follows [data_mining/cluster_parallel_query.py]:
    the streaming partitioner [iter_id_ranges], the admission gate
    [limit_jobs] and the driver [submit_subgroup_jobs].

    Python integers are unbounded, so they are [Z]; [//] is floor
    division, which is [Z.div].  Python [str] values are [string]; the
    value [None] is the [None] of an option.  External commands
    ([wc], [squeue], [sbatch], the PostgreSQL round trip) are answered by
    an explicit cluster oracle and recorded in a log. *)

From Stdlib Require Import String Ascii ZArith Bool Lia List Sorted.
From Stdlib Require Import DecimalString.
From Stdlib Require Import DecimalNat Permutation.
From Equations Require Import Equations.
Import ListNotations.

Local Open Scope Z_scope.

(* ===================================================================== *)
(** * Python primitives *)
(* ===================================================================== *)

Module Py.

(** The exceptions the modelled code can raise. *)
Inductive exn : Type :=
| IndexError          (* [row[0]] on an empty row, [split()[-1]] on no token *)
| ZeroDivisionError   (* [// 0] *)
| RuntimeError        (* StopIteration escaping a generator body *)
| UnboundLocalError   (* reading a loop variable that was never bound *)
| UnicodeDecodeError. (* [bytes.decode()] on bytes outside the model *)

(** Truthiness of a [str]: only the empty string is falsy ([None] is
    falsy too; it is the [None] of an option where it can occur). *)
Definition str_truthy (s : string) : bool :=
  match s with
  | EmptyString => false
  | String _ _ => true
  end.

(** [str.isspace] on one ASCII character: TAB, LF, VT, FF, CR, the four
    separators 0x1c-0x1f and the space. *)
Definition is_space (c : ascii) : bool :=
  let n := nat_of_ascii c in
  ((9 <=? n) && (n <=? 13) || (28 <=? n) && (n <=? 32))%nat.

(** [s.lstrip()] and [s.rstrip()] on the characters of [s]. *)
Fixpoint lstrip (s : list ascii) : list ascii :=
  match s with
  | [] => []
  | c :: s' => if is_space c then lstrip s' else s
  end.

Fixpoint rstrip (s : list ascii) : list ascii :=
  match s with
  | [] => []
  | c :: s' =>
      match rstrip s' with
      | [] => if is_space c then [] else [c]
      | r => c :: r
      end
  end.

Definition strip_chars (s : list ascii) : list ascii := lstrip (rstrip s).

(** [s.strip()]. *)
Definition strip (s : string) : string :=
  string_of_list_ascii (strip_chars (list_ascii_of_string s)).

(** [s.split()] with no argument: the maximal runs of non-whitespace
    characters, in order.  [tok] is the run being read. *)
Fixpoint split_chars (tok : list ascii) (s : list ascii) : list (list ascii) :=
  match s with
  | [] => match tok with [] => [] | _ => [tok] end
  | c :: s' =>
      if is_space c
      then match tok with
           | [] => split_chars [] s'
           | _ => tok :: split_chars [] s'
           end
      else split_chars (tok ++ [c]) s'
  end.

Definition split (s : string) : list string :=
  map string_of_list_ascii (split_chars [] (list_ascii_of_string s)).

(** [l[-1]]. *)
Definition last_item {A : Type} (l : list A) : exn + A :=
  match rev l with
  | [] => inl IndexError
  | x :: _ => inr x
  end.

(** [row[0]]. *)
Definition item0 {A : Type} (l : list A) : exn + A :=
  match l with
  | [] => inl IndexError
  | x :: _ => inr x
  end.

(** [b.decode()] on the bytes a command printed.  On ASCII bytes UTF-8
    decoding is the identity; a byte above 127 is outside this model and
    is reported as a decoding error. *)
Definition is_ascii (c : ascii) : bool := (nat_of_ascii c <? 128)%nat.

Definition decode (b : string) : exn + string :=
  if forallb is_ascii (list_ascii_of_string b) then inr b
  else inl UnicodeDecodeError.

(** [f"{n}"] and [f"{n:03d}"] for an [int]. *)
Definition str_of_nat (n : nat) : string :=
  NilEmpty.string_of_uint (Nat.to_uint n).

Fixpoint zeros (n : nat) : string :=
  match n with
  | O => EmptyString
  | S n' => String "0" (zeros n')
  end.

Definition str_of_int (n : Z) : string :=
  let digits := str_of_nat (Z.abs_nat n) in
  if n <? 0 then ("-" ++ digits)%string else digits.

Definition format_03d (n : Z) : string :=
  let digits := str_of_nat (Z.abs_nat n) in
  if n <? 0
  then ("-" ++ zeros (2 - String.length digits) ++ digits)%string
  else (zeros (3 - String.length digits) ++ digits)%string.

(** Comparison of [str] values: lexicographic on code points, which on
    ASCII and on UTF-8 bytes is [String.compare]. *)
Definition str_lt (a b : string) : Prop := String.ltb a b = true.
Definition str_le (a b : string) : Prop := String.leb a b = true.

(** ** Vocabulary of the parsing claims *)




End Py.

(* ===================================================================== *)
(** * RangePartitioner: [count_lines] and [iter_id_ranges] *)
(* ===================================================================== *)

Module Partitioner.
Import Py.

(** A csv record as [csv.reader] returns it: the list of its fields. *)
Definition row : Type := list string.

(** The index file as [csv.reader] sees it: its records, header first.
    [fetch_and_save_all_ids] writes one record per newline-terminated
    line, so [wc -l] prints the number of records. *)
Definition csv_file : Type := list row.

(** [count_lines]: the number [wc -l] prints, minus the header. *)
Definition count_lines (f : csv_file) : Z := Z.of_nat (length f) - 1.

(** What a generator does when it is run to its end: the values it
    yields, in order, and the exception that ended it, if any. *)
Record gen (A : Type) : Type := mkGen {
  yielded : list A;
  raised : option exn
}.
Arguments mkGen {A} _ _.
Arguments yielded {A} _.
Arguments raised {A} _.

Definition stop {A : Type} : gen A := mkGen [] None.
Definition throw {A : Type} (e : exn) : gen A := mkGen [] (Some e).
Definition yield {A : Type} (x : A) (k : gen A) : gen A :=
  mkGen (x :: yielded k) (raised k).

(** The [for row in reader] loop of [iter_id_ranges] and the statement
    after it.  [first_id] and [count] are the loop's variables, [cur] is
    the binding of [row] left by the previous iteration ([None] before
    the first one). *)
Fixpoint chunk_loop (chunk_size : Z) (first_id : option string) (count : Z)
    (cur : option row) (rows : list row) : gen (string * string) :=
  match rows with
  | [] =>
      (* last partial chunk: [if first_id: yield first_id, row[0]] *)
      match first_id with
      | Some fid =>
          if str_truthy fid then
            match cur with
            | None => throw UnboundLocalError
            | Some r =>
                match item0 r with
                | inl e => throw e
                | inr x => yield (fid, x) stop
                end
            end
          else stop
      | None => stop
      end
  | r :: rest =>
      (* [if not first_id: first_id = row[0]] *)
      let assigned :=
        match first_id with
        | Some fid => if str_truthy fid then inr fid else item0 r
        | None => item0 r
        end in
      match assigned with
      | inl e => throw e
      | inr fid =>
          let count := count + 1 in
          if count =? chunk_size then
            match item0 r with
            | inl e => throw e
            | inr x => yield (fid, x) (chunk_loop chunk_size None 0 (Some r) rest)
            end
          else chunk_loop chunk_size (Some fid) count (Some r) rest
      end
  end.

(** [iter_id_ranges(file_path, num_subgroups)], run to its end. *)
Definition iter_id_ranges (f : csv_file) (num_subgroups : Z)
    : gen (string * string) :=
  let total_lines := count_lines f in
  if num_subgroups =? 0 then throw ZeroDivisionError
  else
    let chunk_size := (total_lines + num_subgroups - 1) / num_subgroups in
    match f with
    | [] => throw RuntimeError                      (* [next(reader)] *)
    | _header :: rows => chunk_loop chunk_size None 0 None rows
    end.

(** ** Vocabulary of the partitioning claims *)

(** [f] is a header line followed by data rows whose first fields are
    [ids], in order. *)
Definition index_file (f : csv_file) (ids : list string) : Prop :=
  exists header rows,
    f = header :: rows /\ Forall2 (fun r i => item0 r = inr i) rows ids.

(** The identifiers are sorted ascending: each is at most the next. *)
Definition sorted_ids (ids : list string) : Prop := Sorted str_le ids.



(** The contiguous chunks of [c] elements of a list, the last one holding
    what remains. *)
Equations? chunks {A : Type} (c : nat) (l : list A) : list (list A)
    by wf (length l) lt :=
  chunks O _ := [];
  chunks (S c') [] := [];
  chunks (S c') (x :: l) := (x :: firstn c' l) :: chunks (S c') (skipn c' l).
Proof.
  rewrite length_skipn. simpl. lia.
Qed.

(** The boundary pair of a chunk: its first and its last identifier. *)
Definition bounds (ch : list string) : string * string :=
  (hd EmptyString ch, last ch EmptyString).


(** [ceil(a / b)] for positive [b], on natural numbers. *)
Definition ceil_div (a b : nat) : nat := (a + b - 1) / b.

(** The first identifier of a chunk that is not the empty string, and
    the empty string when there is none. *)
Definition first_truthy (ch : list string) : string :=
  match find str_truthy ch with
  | Some x => x
  | None => EmptyString
  end.

(** The pairs a chunk contributes: a chunk of [c] rows is closed inside
    the loop; a shorter one is the remainder, closed after the loop when
    [first_id] is truthy. *)
Definition emit (c : nat) (ch : list string) : list (string * string) :=
  if (length ch =? c)%nat then [(first_truthy ch, last ch EmptyString)]
  else if str_truthy (first_truthy ch)
       then [(first_truthy ch, last ch EmptyString)]
       else [].

(** A pair [p] covers [m] consecutive identifiers of [ids]: it is the
    first and the last of [m] identifiers in a row. *)
Definition covers (ids : list string) (p : string * string) (m : nat) : Prop :=
  exists i, (1 <= m)%nat /\ (i + m <= length ids)%nat /\
    nth_error ids i = Some (fst p) /\
    nth_error ids (i + m - 1) = Some (snd p).

(** The state of the loop after the rows of [p] were read into the
    current chunk. *)
Definition loop_state (p : list string) (first_id : option string)
    (cur : option row) : Prop :=
  match p with
  | [] => first_id = None
  | _ => first_id = Some (first_truthy p) /\
         exists r, cur = Some r /\ item0 r = inr (last p EmptyString)
  end.



(** The end-to-end expectation for 95 identifiers and 10 partitions. *)
Definition ten_pairs_of_9_or_10 (ids : list string)
    (ys : list (string * string)) : Prop :=
  length ys = 10%nat /\
  Forall (fun p => covers ids p 9 \/ covers ids p 10) ys /\
  option_map fst (hd_error ys) = nth_error ids 0 /\
  option_map snd (nth_error ys 9) = nth_error ids 94.

(** A decision procedure for [covers]. *)
Definition coversb (ids : list string) (p : string * string) (m : nat) : bool :=
  (1 <=? m)%nat &&
  existsb (fun i =>
             (i + m <=? length ids)%nat &&
             match nth_error ids i, nth_error ids (i + m - 1) with
             | Some a, Some b => String.eqb a (fst p) && String.eqb b (snd p)
             | _, _ => false
             end)
          (seq 0 (length ids)).

(** A decision procedure for [sorted_ids]. *)
Fixpoint ascendingb (l : list string) : bool :=
  match l with
  | [] => true
  | x :: l' =>
      match l' with
      | [] => true
      | y :: _ => String.leb x y && ascendingb l'
      end
  end.

(** An index file as [fetch_and_save_all_ids] writes it. *)
Definition file_of (ids : list string) : csv_file :=
  ["id"%string] :: map (fun i => [i]) ids.

(** Sample identifiers of fixed width, so that their order is the
    numeric one: ["W0000"], ["W0001"], ... *)
Definition sample_ids (n : nat) : list string :=
  map (fun i => let d := str_of_nat i in
                ("W" ++ zeros (4 - String.length d) ++ d)%string) (seq 0 n).





End Partitioner.

(* ===================================================================== *)
(** * The cluster: ResourceProbe, AdmissionController, SubmissionDriver *)
(* ===================================================================== *)

Module Cluster.
Import Py Partitioner.

(** ** Configuration constants of the module *)

Definition INDEX_FILE_PATH : string := "data/works_ids_index_all.csv".
Definition SUBGROUP_RESULTS_DIR : string := "data/subgroup_results".
Definition NUM_SUBGROUPS : Z := 10000.
Definition JOB_SCRIPT_DIR : string :=
  "data_mining/queries/parallel_queries/slurm_query_jobs".
Definition JOB_OUTPUT_DIR : string :=
  "data_mining/queries/parallel_queries/slurm_query_logs".
Definition QUERY_MEM : string := "2G".
Definition QUERY_TIME : string := "72:00:00".
Definition CPUS_PER_TASK : Z := 2.
Definition MAX_JOBS_RUNNING : Z := 180.

(** ** The outside world *)

(** What the PostgreSQL server reports when the free-slot query runs. *)
Record pg_server : Type := mkPg {
  max_connections : Z;
  superuser_reserved_connections : Z;
  active_cnt : Z
}.

(** The answers of the outside world.  Each external command is answered
    at the moment it is issued: the index is the number of external
    commands this process has issued before it, so an oracle is one
    sequence of probe responses. *)
Record cluster : Type := mkCluster {
  squeue : nat -> string -> string;   (* stdout of [squeue -h -j job] *)
  pg_stat : nat -> pg_server;         (* server state read by the query *)
  sbatch : nat -> string -> string    (* stdout bytes of [sbatch script] *)
}.

(** The effects of the process, as they are logged. *)
Inductive event : Type :=
| EnsureDir (path : string)          (* [os.makedirs] when the path is missing *)
| WriteScript (path text : string)
| RunSqueue (job : string)
| RunSbatch (script_path : string)
| PgQuery (threshold : Z)
| Sleep (seconds : Z)
| PrintJobsFinished (n_running : Z)
| PrintSubmitted (idx : Z) (num_subgroups : Z) (min_id max_id job_id : string)
| PrintTotal (n : nat).

(** The state of a run: how many external commands were issued, and the
    log of effects, most recent first. *)
Record world : Type := mkWorld {
  now : nat;
  log : list event
}.

Definition start : world := mkWorld O [].

(** ** A small monad for the process *)

(** A computation ends with a value, ends with an exception, or is still
    inside the polling loop of the gate when its rounds are used up. *)
Inductive outcome (A : Type) : Type :=
| Done (a : A)
| Raised (e : exn)
| Polling.
Arguments Done {A} _.
Arguments Raised {A} _.
Arguments Polling {A}.

Definition prog (A : Type) : Type := world -> outcome A * world.

Definition ret {A : Type} (a : A) : prog A := fun w => (Done a, w).

Definition bind {A B : Type} (m : prog A) (k : A -> prog B) : prog B :=
  fun w =>
    match m w with
    | (Done a, w') => k a w'
    | (Raised e, w') => (Raised e, w')
    | (Polling, w') => (Polling, w')
    end.

Definition raise {A : Type} (e : exn) : prog A := fun w => (Raised e, w).

Definition still_polling {A : Type} : prog A := fun w => (Polling, w).

(** An effect that asks the outside world nothing. *)
Definition emit_event (e : event) : prog unit :=
  fun w => (Done tt, mkWorld (now w) (e :: log w)).

(** An external command: logged, and the clock of commands advances. *)
Definition external {A : Type} (e : event) (answer : nat -> A) : prog A :=
  fun w => (Done (answer (now w)), mkWorld (S (now w)) (e :: log w)).

Definition lift {A : Type} (r : exn + A) : prog A :=
  match r with
  | inl e => raise e
  | inr a => ret a
  end.

Notation "x <- m ;; k" := (bind m (fun x => k))
  (at level 61, m at next level, right associativity).
Notation "m ;;; k" := (bind m (fun _ => k))
  (at level 61, right associativity).

Section Process.

Variable cl : cluster.

(** ** ResourceProbe *)

(** [free_connections_exceed(threshold)]: the query computes
    [(max_conn - super_res - active_cnt) > threshold] on the server. *)
Definition free_slots (s : pg_server) : Z :=
  max_connections s - superuser_reserved_connections s - active_cnt s.

Definition free_connections_exceed (threshold : Z) : prog bool :=
  external (PgQuery threshold)
           (fun t => free_slots (pg_stat cl t) >? threshold).

(** [subprocess.run(["squeue", "-h", "-j", str(job)], ...).stdout]. *)
Definition run_squeue (job : string) : prog string :=
  external (RunSqueue job) (fun t => squeue cl t job).

(** [subprocess.run(["sbatch", script_path], ...).stdout]. *)
Definition run_sbatch (script_path : string) : prog string :=
  external (RunSbatch script_path) (fun t => sbatch cl t script_path).

Definition sleep (seconds : Z) : prog unit := emit_event (Sleep seconds).

(** ** AdmissionController: [limit_jobs] *)

(** The [for job in job_queue] loop: the handles whose [squeue] output is
    not blank, in order. *)
Fixpoint still_running (job_queue : list string) : prog (list string) :=
  match job_queue with
  | [] => ret []
  | job :: rest =>
      out <- run_squeue job ;;
      tl <- still_running rest ;;
      ret (if str_truthy (strip out) then job :: tl else tl)
  end.

(** One pass of the [while True] body: either the gate returns the
    pruned list, or it has slept and goes round again with it. *)
Inductive round : Type :=
| Release (job_queue : list string)
| Retry (job_queue : list string).

Definition release (n_running : Z) (delay : Z) (job_queue : list string)
    : prog round :=
  emit_event (PrintJobsFinished n_running) ;;;
  sleep delay ;;;
  ret (Release job_queue).

Definition limit_jobs_round (job_queue : list string) (max_jobs_running : Z)
    : prog round :=
  job_queue <- still_running job_queue ;;        (* [job_queue[:] = still_running] *)
  let n_running := Z.of_nat (length job_queue) in
  (* condition 1: much below limit *)
  if n_running <? max_jobs_running - 150 then release n_running 5 job_queue
  else
    (* condition 2: moderately below limit and enough free connections *)
    c2 <- (if n_running <? max_jobs_running - 20
           then free_connections_exceed 30 else ret false) ;;
    if c2 then release n_running 5 job_queue
    else
      (* condition 3: just below limit and enough free connections *)
      c3 <- (if n_running <? max_jobs_running
             then free_connections_exceed 15 else ret false) ;;
      if c3 then release n_running 15 job_queue
      else
        (* otherwise wait and retry *)
        sleep 30 ;;;
        ret (Retry job_queue).

(** [limit_jobs(job_queue, max_jobs_running)], given a number of rounds.
    The list is updated in place and the same object is returned; its
    only caller rebinds its own name to the result, so passing the
    contents along is exact. *)
Fixpoint limit_jobs (rounds : nat) (job_queue : list string)
    (max_jobs_running : Z) : prog (list string) :=
  match rounds with
  | O => still_polling
  | S rounds' =>
      r <- limit_jobs_round job_queue max_jobs_running ;;
      match r with
      | Release q => ret q
      | Retry q => limit_jobs rounds' q max_jobs_running
      end
  end.

(** ** JobDescriptorBuilder: [create_query_job] *)

Definition nl : string := String (ascii_of_nat 10) EmptyString.
Definition dquote : string := String (ascii_of_nat 34) EmptyString.

(** [os.path.join(a, b)]. *)
Definition path_join (a b : string) : string :=
  if String.prefix "/" b then b
  else match rev (list_ascii_of_string a) with
       | [] => b
       | c :: _ => if Ascii.eqb c "/" then (a ++ b)%string
                   else (a ++ "/" ++ b)%string
       end.

Definition job_script (job_name stdout_file stderr_file : string)
    (id_range : string * string) (output_csv : string) : string :=
  String.concat nl
    [ "#!/bin/bash";
      "#SBATCH --job-name=" ++ job_name;
      "#SBATCH --output=" ++ stdout_file;
      "#SBATCH --error=" ++ stderr_file;
      "#SBATCH --time=" ++ QUERY_TIME;
      "#SBATCH --mem=" ++ QUERY_MEM;
      "#SBATCH --cpus-per-task=" ++ str_of_int CPUS_PER_TASK;
      "#SBATCH --mail-user=oranbe@post.bgu.ac.il # users email for sending job status notifications";
      "#SBATCH --mail-type=FAIL        # conditions for sending the email";
      "";
      "python data_mining/queries/parallel_queries/get_work_year_institution_country.py "
        ++ dquote ++ fst id_range ++ dquote ++ " "
        ++ dquote ++ snd id_range ++ dquote ++ " "
        ++ dquote ++ output_csv ++ dquote;
      "" ]%string.

Definition create_query_job (subgroup_idx : Z) (id_range : string * string)
    (output_csv : string) : prog string :=
  emit_event (EnsureDir JOB_SCRIPT_DIR) ;;;
  emit_event (EnsureDir JOB_OUTPUT_DIR) ;;;
  let job_name := ("works_q_" ++ format_03d subgroup_idx)%string in
  let script_path := path_join JOB_SCRIPT_DIR (job_name ++ ".sbatch") in
  let stdout_file := path_join JOB_OUTPUT_DIR (job_name ++ ".out") in
  let stderr_file := path_join JOB_OUTPUT_DIR (job_name ++ ".err") in
  emit_event (WriteScript script_path
                (job_script job_name stdout_file stderr_file id_range output_csv)) ;;;
  ret script_path.

(** ** SubmissionDriver: [submit_subgroup_jobs] *)

(** [submit.stdout.decode().strip().split()[-1]]. *)
Definition parse_job_id (stdout : string) : exn + string :=
  match decode stdout with
  | inl e => inl e
  | inr text => last_item (split (strip text))
  end.

(** The body of the [for idx, (min_id, max_id) in enumerate(..., start=1)]
    loop over the pairs the generator yields; [rounds] bounds every call
    of the gate. *)
Fixpoint submit_loop (rounds : nat) (num_subgroups : Z) (output_dir : string)
    (idx : Z) (ranges : list (string * string)) (job_queue : list string)
    : prog (list string) :=
  match ranges with
  | [] => ret job_queue
  | (min_id, max_id) :: rest =>
      if idx <? 5556
      then submit_loop rounds num_subgroups output_dir (idx + 1) rest job_queue
      else
        let csv_path :=
          path_join output_dir ("subgroup_" ++ format_03d idx ++ ".csv") in
        script_path <- create_query_job idx (min_id, max_id) csv_path ;;
        job_queue <- limit_jobs rounds job_queue MAX_JOBS_RUNNING ;;
        out <- run_sbatch script_path ;;
        job_id <- lift (parse_job_id out) ;;
        let job_queue := job_queue ++ [job_id] in      (* [job_queue.append(job_id)] *)
        emit_event (PrintSubmitted idx num_subgroups min_id max_id job_id) ;;;
        submit_loop rounds num_subgroups output_dir (idx + 1) rest job_queue
  end.

(** [submit_subgroup_jobs(index_csv, num_subgroups, output_dir)]; [index_csv]
    is the content of the file at that path.  The generator is consumed
    pair by pair, so an exception that ends it surfaces after the pairs
    it yielded were processed. *)
Definition submit_subgroup_jobs (rounds : nat) (index_csv : csv_file)
    (num_subgroups : Z) (output_dir : string) : prog (list string) :=
  emit_event (EnsureDir output_dir) ;;;
  let g := iter_id_ranges index_csv num_subgroups in
  job_queue <- submit_loop rounds num_subgroups output_dir 1 (yielded g) [] ;;
  match raised g with
  | Some e => raise e
  | None => ret job_queue
  end.

(** The two statements at the end of the module. *)
Definition main (rounds : nat) (index_csv : csv_file) : prog unit :=
  job_ids <- submit_subgroup_jobs rounds index_csv NUM_SUBGROUPS
               SUBGROUP_RESULTS_DIR ;;
  emit_event (PrintTotal (length job_ids)).

End Process.

(** ** Vocabulary of the gate and driver claims *)

(** The handles the driver reported as submitted, oldest first. *)
Definition submitted_handles (w : world) : list string :=
  flat_map (fun e => match e with
                     | PrintSubmitted _ _ _ _ job_id => [job_id]
                     | _ => []
                     end) (rev (log w)).

(** The number of [sbatch] commands issued. *)
Definition submissions (w : world) : nat :=
  length (filter (fun e => match e with RunSbatch _ => true | _ => false end)
                 (log w)).

(** The thresholds of the database probe that were queried. *)
Definition pg_queries (w : world) : list Z :=
  flat_map (fun e => match e with PgQuery t => [t] | _ => [] end) (log w).

(** The pruned in-flight list of a polling round and the world after the
    [squeue] probes that computed it. *)
Definition pruned (cl : cluster) (job_queue : list string) (w : world)
    : list string :=
  match fst (still_running cl job_queue w) with
  | Done q => q
  | _ => []
  end.

Definition probed (cl : cluster) (job_queue : list string) (w : world) : world :=
  snd (still_running cl job_queue w).

(** The three release conditions of a round with [n] live handles, as the
    database would answer them in world [w]. *)
Definition tier1 (n max_jobs_running : Z) : Prop := n < max_jobs_running - 150.

Definition tier2 (cl : cluster) (n max_jobs_running : Z) (w : world) : Prop :=
  n < max_jobs_running - 20 /\ free_slots (pg_stat cl (now w)) > 30.

(** The probe of condition 3 comes after the probe of condition 2 when
    that one was issued. *)
Definition tier3 (cl : cluster) (n max_jobs_running : Z) (w : world) : Prop :=
  n < max_jobs_running /\
  free_slots (pg_stat cl (if n <? max_jobs_running - 20
                          then S (now w) else now w)) > 15.

(** The world after one query of the database probe. *)
Definition asked (threshold : Z) (w : world) : world :=
  mkWorld (S (now w)) (PgQuery threshold :: log w).

(** The world after a release: the progress line, then the delay. *)
Definition released (n delay : Z) (w : world) : world :=
  mkWorld (now w) (Sleep delay :: PrintJobsFinished n :: log w).

(** The world after a round that released nothing: the probes that were
    issued, then the 30 second sleep. *)
Definition waited (n max_jobs_running : Z) (w : world) : world :=
  let w2 := if n <? max_jobs_running - 20 then asked 30 w else w in
  let w3 := if n <? max_jobs_running then asked 15 w2 else w2 in
  mkWorld (now w3) (Sleep 30 :: log w3).

(** The list and the world at the start of round [i] of one call of the
    gate, when no earlier round released. *)
Fixpoint round_start (cl : cluster) (max_jobs_running : Z) (i : nat)
    (job_queue : list string) (w : world) : list string * world :=
  match i with
  | O => (job_queue, w)
  | S i' =>
      let q := pruned cl job_queue w in
      round_start cl max_jobs_running i' q
        (waited (Z.of_nat (length q)) max_jobs_running (probed cl job_queue w))
  end.

(** In the round that starts with [job_queue] in world [w], the live
    in-flight count is at the ceiling or above it and the database has
    no more than 15 free slots. *)
Definition at_ceiling (cl : cluster) (max_jobs_running : Z)
    (s : list string * world) : Prop :=
  max_jobs_running <= Z.of_nat (length (pruned cl (fst s) (snd s))) /\
  free_slots (pg_stat cl (now (probed cl (fst s) (snd s)))) <= 15.

(** ** Sample clusters and runs *)

(** A cluster where every probed job is still queued, the database is
    full, and [sbatch] numbers the jobs by the moment of submission. *)
Definition busy_cluster : cluster :=
  mkCluster (fun _ job => ("  " ++ job ++ " works_q R 0:01")%string)
            (fun _ => mkPg 100 3 97)
            (fun t _ => ("Submitted batch job " ++ str_of_nat (1000 + t))%string).

(** A cluster where every job has left the queue when it is probed. *)
Definition idle_cluster : cluster :=
  mkCluster (fun _ _ => EmptyString)
            (fun _ => mkPg 100 3 10)
            (fun t _ => ("Submitted batch job " ++ str_of_nat (1000 + t))%string).


(** An index file of 5557 rows: with one row per partition the
    partitions 5556 and 5557 are the ones the driver submits. *)
Definition resume_file : csv_file := file_of (sample_ids (Z.to_nat 5557)).

End Cluster.

(* ===================================================================== *)
(** * Vocabulary of further properties *)
(* ===================================================================== *)

Module Further.
Import Py Partitioner Cluster.

(** [l'] is [l] with some elements removed: nothing added, nothing
    reordered. *)
Inductive kept {A : Type} : list A -> list A -> Prop :=
| kept_nil : kept [] []
| kept_drop (x : A) (l' l : list A) : kept l' l -> kept l' (x :: l)
| kept_keep (x : A) (l' l : list A) : kept l' l -> kept (x :: l') (x :: l).

(** The world after the probes and the delay of a release through
    condition 2 or 3. *)
Definition after_tier2 (n : Z) (w : world) : world :=
  released n 5 (asked 30 w).

Definition after_tier3 (n max_jobs_running : Z) (w : world) : world :=
  released n 15
    (asked 15 (if n <? max_jobs_running - 20 then asked 30 w else w)).

(** The [sbatch] scripts written so far, oldest first: path and text. *)
Definition written_scripts (w : world) : list (string * string) :=
  flat_map (fun e => match e with
                     | WriteScript path text => [(path, text)]
                     | _ => []
                     end) (rev (log w)).

(** The scripts handed to [sbatch], oldest first. *)
Definition submitted_scripts (w : world) : list string :=
  flat_map (fun e => match e with RunSbatch path => [path] | _ => [] end)
           (rev (log w)).

(** The effects of the gate: probes of the queue and of the database,
    delays, and its progress line. *)
Definition gate_event (e : event) : Prop :=
  match e with
  | RunSqueue _ | PgQuery _ | Sleep _ | PrintJobsFinished _ => True
  | _ => False
  end.

(** [enumerate(l, start)]. *)
Fixpoint enumerate {A : Type} (start : Z) (l : list A) : list (Z * A) :=
  match l with
  | [] => []
  | x :: l' => (start, x) :: enumerate (start + 1) l'
  end.

(** Reading a decimal number back; leading zeros are accepted. *)
Definition read_nat (s : string) : option nat :=
  option_map Nat.of_uint (NilEmpty.uint_of_string s).

(** The file name the driver gives the output of partition [idx]. *)
Definition csv_name (idx : Z) : string :=
  ("subgroup_" ++ format_03d idx ++ ".csv")%string.

(** The script path [create_query_job] returns for partition [idx]. *)
Definition script_path_of (idx : Z) : string :=
  path_join JOB_SCRIPT_DIR (("works_q_" ++ format_03d idx) ++ ".sbatch")%string.

(** The script [create_query_job] writes for the partition [fst p] with
    the range [snd p], when the driver runs with [output_dir]: its path
    and its text. *)
Definition script_of (output_dir : string) (p : Z * (string * string))
    : string * string :=
  let job_name := ("works_q_" ++ format_03d (fst p))%string in
  (script_path_of (fst p),
   job_script job_name
     (path_join JOB_OUTPUT_DIR (job_name ++ ".out"))
     (path_join JOB_OUTPUT_DIR (job_name ++ ".err"))
     (snd p)
     (path_join output_dir (csv_name (fst p)))).

(** The partitions that pass the driver's filter [if idx < 5556:
    continue], counted from [start]. *)
Definition to_submit (start : Z) (ranges : list (string * string))
    : list (Z * (string * string)) :=
  filter (fun p => negb (fst p <? 5556)) (enumerate start ranges).



(** What the submission loop keeps: the tracked list is a selection of
    the handles reported so far, and it ends with the latest of them. *)
Definition tracks (job_queue new : list string) : Prop :=
  kept job_queue new /\
  forall n0 h, new = n0 ++ [h] -> exists q0, job_queue = q0 ++ [h].

(** A cluster where every probed job is still queued and the database
    has 87 free slots. *)
Definition roomy_cluster : cluster :=
  mkCluster (fun _ job => ("  " ++ job ++ " works_q R 0:01")%string)
            (fun _ => mkPg 100 3 10)
            (fun t _ => ("Submitted batch job " ++ str_of_nat (1000 + t))%string).

End Further.
Import Further.

(* ===================================================================== *)
(** * The in-memory variant: [down.py] and [data_mining/cluster_query.py] *)
(* ===================================================================== *)

Module InMemory.
Import Py Partitioner Cluster.

(** The exceptions of these modules: those of [Py], [StopIteration]
    raised by [next] outside a generator, and [ValueError] raised by
    [range] with a zero step. *)
Inductive exc : Type :=
| Std (e : exn)
| StopIteration
| ValueError.

(** ** [down.py] *)




(** [range(0, stop, step)] for a positive step: [0, step, 2*step, ...]
    below [stop]. *)
Definition range_from_0 (stop step : nat) : list nat :=
  map (fun j => j * step)%nat (seq 0 (ceil_div stop step)).

(** [list(chunk_list(lst, n))]: the slices [lst[i : i + n]] for [i] in
    [range(0, len(lst), n)].  A zero step makes [range] raise; a
    negative one makes it empty. *)
Definition chunk_list {A : Type} (lst : list A) (n : Z)
    : exc + list (list A) :=
  if n =? 0 then inl ValueError
  else if n <? 0 then inr []
  else inr (map (fun i => firstn (Z.to_nat n) (skipn i lst))
                (range_from_0 (length lst) (Z.to_nat n))).

(** ** [data_mining/cluster_query.py] *)

Definition NUM_SUBGROUPS : Z := 10.
Definition JOB_SCRIPT_DIR : string := "slurm_query_jobs".
Definition JOB_OUTPUT_DIR : string := "slurm_query_logs".
Definition QUERY_MEM : string := "8G".
Definition QUERY_TIME : string := "02:00:00".
Definition CPUS_PER_TASK : Z := 2.
Definition MAX_JOBS_RUNNING : Z := 20.

(** The scheduler as this module sees it: the return code of
    [squeue -h -j job] and the output of [sbatch], each at the moment the
    command is issued. *)
Record scheduler : Type := mkScheduler {
  squeue_returncode : nat -> string -> Z;
  sbatch_stdout : nat -> string -> string
}.

(** How a run of this module ends. *)
Inductive ending (A : Type) : Type :=
| Finished (a : A)
| Threw (e : exc)
| InLoop.
Arguments Finished {A} _.
Arguments Threw {A} _.
Arguments InLoop {A}.

Definition ending_of {A : Type} (o : outcome A) : ending A :=
  match o with
  | Done a => Finished a
  | Raised e => Threw (Std e)
  | Polling => InLoop
  end.

Section Process.

Variable sch : scheduler.

(** The list comprehension of [limit_jobs]: the jobs for which [squeue]
    returns 0, in order. *)
Fixpoint still_queued (job_queue : list string) : prog (list string) :=
  match job_queue with
  | [] => ret []
  | job :: rest =>
      rc <- external (RunSqueue job) (fun t => squeue_returncode sch t job) ;;
      tl <- still_queued rest ;;
      ret (if rc =? 0 then job :: tl else tl)
  end.

(** [limit_jobs(job_queue, max_jobs_running)], given a number of passes
    of its [while] loop.  It returns nothing and updates the list in
    place; the value here is the content of the list when it returns. *)
Fixpoint limit_jobs (passes : nat) (job_queue : list string)
    (max_jobs_running : Z) : prog (list string) :=
  if Z.of_nat (length job_queue) <? max_jobs_running then ret job_queue
  else
    match passes with
    | O => still_polling
    | S passes' =>
        job_queue <- still_queued job_queue ;;
        if Z.of_nat (length job_queue) <? max_jobs_running then ret job_queue
        else
          sleep 10 ;;;
          limit_jobs passes' job_queue max_jobs_running
    end.

Definition job_script (job_name stdout_file stderr_file : string)
    (id_range : string * string) (output_csv : string) : string :=
  String.concat nl
    [ "#!/bin/bash";
      "#SBATCH --job-name=" ++ job_name;
      "#SBATCH --output=" ++ stdout_file;
      "#SBATCH --error=" ++ stderr_file;
      "#SBATCH --time=" ++ QUERY_TIME;
      "#SBATCH --mem=" ++ QUERY_MEM;
      "#SBATCH --cpus-per-task=" ++ str_of_int CPUS_PER_TASK;
      "";
      "# Activate environment if needed, e.g.:";
      "# module load anaconda && source activate myenv";
      "";
      "python range_query_runner.py "
        ++ dquote ++ fst id_range ++ dquote ++ " "
        ++ dquote ++ snd id_range ++ dquote ++ " "
        ++ dquote ++ output_csv ++ dquote;
      "" ]%string.

Definition create_query_job (subgroup_idx : Z) (id_range : string * string)
    (output_csv : string) : prog string :=
  emit_event (EnsureDir JOB_SCRIPT_DIR) ;;;
  emit_event (EnsureDir JOB_OUTPUT_DIR) ;;;
  let job_name := ("works_q_" ++ format_03d subgroup_idx)%string in
  let script_path := path_join JOB_SCRIPT_DIR (job_name ++ ".sbatch") in
  let stdout_file := path_join JOB_OUTPUT_DIR (job_name ++ ".out") in
  let stderr_file := path_join JOB_OUTPUT_DIR (job_name ++ ".err") in
  emit_event (WriteScript script_path
                (job_script job_name stdout_file stderr_file id_range output_csv)) ;;;
  ret script_path.

(** The first statements of [submit_subgroup_jobs]: the chunk size and
    the list of chunks. *)
Definition id_chunks (all_ids : list string) (num_subgroups : Z)
    : exc + list (list string) :=
  let total_ids := Z.of_nat (length all_ids) in
  if num_subgroups =? 0 then inl (Std ZeroDivisionError)
  else
    let chunk_size := (total_ids + num_subgroups - 1) / num_subgroups in
    chunk_list all_ids chunk_size.

(** The [for idx, chunk in enumerate(id_chunks)] loop; [total] is
    [len(id_chunks)]. *)
Fixpoint submit_chunks (passes : nat) (total : Z) (output_dir : string)
    (idx : Z) (id_chunks : list (list string)) (job_queue : list string)
    : prog (list string) :=
  match id_chunks with
  | [] => ret job_queue
  | chunk :: rest =>
      match chunk with
      | [] => submit_chunks passes total output_dir (idx + 1) rest job_queue
      | _ =>
          min_id <- lift (item0 chunk) ;;
          max_id <- lift (last_item chunk) ;;
          let csv_path :=
            path_join output_dir
              ("subgroup_" ++ format_03d (idx + 1) ++ ".csv") in
          script_path <- create_query_job (idx + 1) (min_id, max_id) csv_path ;;
          job_queue <- limit_jobs passes job_queue MAX_JOBS_RUNNING ;;
          out <- external (RunSbatch script_path)
                          (fun t => sbatch_stdout sch t script_path) ;;
          job_id <- lift (parse_job_id out) ;;
          let job_queue := job_queue ++ [job_id] in
          emit_event (PrintSubmitted (idx + 1) total min_id max_id job_id) ;;;
          submit_chunks passes total output_dir (idx + 1) rest job_queue
      end
  end.

(** [submit_subgroup_jobs(all_ids, num_subgroups, output_dir)]. *)
Definition submit_subgroup_jobs (passes : nat) (all_ids : list string)
    (num_subgroups : Z) (output_dir : string)
    : world -> ending (list string) * world :=
  fun w =>
    let w1 := mkWorld (now w) (EnsureDir output_dir :: log w) in
    match id_chunks all_ids num_subgroups with
    | inl e => (Threw e, w1)
    | inr cs =>
        let (o, w2) :=
          submit_chunks passes (Z.of_nat (length cs)) output_dir 0 cs [] w1 in
        (ending_of o, w2)
    end.

End Process.

(** The number of [squeue] commands issued. *)
Definition probes (w : world) : nat :=
  length (filter (fun e => match e with RunSqueue _ => true | _ => false end)
                 (log w)).

(** A scheduler on which every job stays queued. *)
Definition stuck_scheduler : scheduler :=
  mkScheduler (fun _ _ => 0)
              (fun t _ => ("Submitted batch job " ++ str_of_nat (1000 + t))%string).

(** A scheduler on which the job 1000 has left the queue ([squeue]
    fails for it) and every other job is still there. *)
Definition draining_scheduler : scheduler :=
  mkScheduler (fun _ job => if String.eqb job "1000" then 1 else 0)
              (fun t _ => ("Submitted batch job " ++ str_of_nat (1000 + t))%string).

End InMemory.

(* ===================================================================== *)
(** * The second query: [data_mining_openalex/cluster_parallel_query.py] *)
(* ===================================================================== *)

(** The module is a copy of [data_mining/cluster_parallel_query.py] with
    other constants, another first margin in the gate, another script
    and another filter in the driver; the probe, the partitioner and the
    parsing of the submission response are the same code. *)
Module Openalex.
Import Py Partitioner Cluster Further.

Definition INDEX_FILE_PATH : string := "data/works_ids_index_all.csv".
Definition SUBGROUP_RESULTS_DIR : string := "data/q2/subgroup_results".
Definition NUM_SUBGROUPS : Z := 10000.
Definition JOB_SCRIPT_DIR : string := "data/q2/slurm_query_jobs".
Definition JOB_OUTPUT_DIR : string := "data/q2/slurm_query_logs".
Definition QUERY_MEM : string := "10G".
Definition QUERY_TIME : string := "48:00:00".
Definition CPUS_PER_TASK : Z := 2.
Definition MAX_JOBS_RUNNING : Z := 20.

Section Process.

Variable cl : cluster.

Definition limit_jobs_round (job_queue : list string) (max_jobs_running : Z)
    : prog round :=
  job_queue <- still_running cl job_queue ;;     (* [job_queue[:] = still_running] *)
  let n_running := Z.of_nat (length job_queue) in
  (* condition 1: much below limit *)
  if n_running <? max_jobs_running - 50 then release n_running 5 job_queue
  else
    (* condition 2: moderately below limit and enough free connections *)
    c2 <- (if n_running <? max_jobs_running - 20
           then free_connections_exceed cl 30 else ret false) ;;
    if c2 then release n_running 5 job_queue
    else
      (* condition 3: just below limit and enough free connections *)
      c3 <- (if n_running <? max_jobs_running
             then free_connections_exceed cl 15 else ret false) ;;
      if c3 then release n_running 15 job_queue
      else
        (* otherwise wait and retry *)
        sleep 30 ;;;
        ret (Retry job_queue).

Fixpoint limit_jobs (rounds : nat) (job_queue : list string)
    (max_jobs_running : Z) : prog (list string) :=
  match rounds with
  | O => still_polling
  | S rounds' =>
      r <- limit_jobs_round job_queue max_jobs_running ;;
      match r with
      | Release q => ret q
      | Retry q => limit_jobs rounds' q max_jobs_running
      end
  end.

Definition job_script (job_name stdout_file stderr_file : string)
    (id_range : string * string) (output_csv : string) : string :=
  String.concat nl
    [ "#!/bin/bash";
      "#SBATCH --job-name=q2_" ++ job_name;
      "#SBATCH --output=" ++ stdout_file;
      "#SBATCH --error=" ++ stderr_file;
      "#SBATCH --time=" ++ QUERY_TIME;
      "#SBATCH --mem=" ++ QUERY_MEM;
      "#SBATCH --cpus-per-task=" ++ str_of_int CPUS_PER_TASK;
      "#SBATCH --mail-user=oranbe@post.bgu.ac.il # users email for sending job status notifications";
      "#SBATCH --mail-type=END        # conditions for sending the email BEGIN,END,FAIL";
      "";
      "python data_mining/queries/parallel_queries/q2_get_work_year_institution_country_city_author.py "
        ++ dquote ++ fst id_range ++ dquote ++ " "
        ++ dquote ++ snd id_range ++ dquote ++ " "
        ++ dquote ++ output_csv ++ dquote;
      "" ]%string.

Definition script_path_of (subgroup_idx : Z) : string :=
  path_join JOB_SCRIPT_DIR
    (("works_q_" ++ format_03d subgroup_idx) ++ ".sbatch")%string.

Definition create_query_job (subgroup_idx : Z) (id_range : string * string)
    (output_csv : string) : prog string :=
  emit_event (EnsureDir JOB_SCRIPT_DIR) ;;;
  emit_event (EnsureDir JOB_OUTPUT_DIR) ;;;
  let job_name := ("works_q_" ++ format_03d subgroup_idx)%string in
  let script_path := path_join JOB_SCRIPT_DIR (job_name ++ ".sbatch") in
  let stdout_file := path_join JOB_OUTPUT_DIR (job_name ++ ".out") in
  let stderr_file := path_join JOB_OUTPUT_DIR (job_name ++ ".err") in
  emit_event (WriteScript script_path
                (job_script job_name stdout_file stderr_file id_range output_csv)) ;;;
  ret script_path.

(** The list literal of the driver's filter [if idx not in [...]]. *)
Definition listed : list Z :=
  [ 0; 3626; 3815; 3835; 3865; 3866; 3967; 4013; 4059; 4149; 4196;
    4328; 4354; 4464; 4524; 4642; 4772; 4822; 4878; 4921; 4978;
    5057; 5270; 5350; 5429; 5463; 5487; 5569; 5645; 5704; 5776;
    5923; 5996; 6068; 6139; 6209; 6279; 6412; 6458; 6522; 6612;
    6675; 6721; 6779; 6848; 6909; 7033; 7107; 7175; 7185; 7196;
    7213; 7231; 7284; 7426; 7516; 7600; 7682; 7723; 7764; 7805;
    7846; 7887; 7928; 8009; 8091; 8132; 8173; 8214; 8255; 8296;
    8337; 8419; 8501; 8542; 8583; 8624; 8665; 8693; 8695; 8809;
    8937; 9034; 9147; 9198; 9200; 9202; 9265; 9306; 9477; 9480;
    9482; 9485; 9487; 9493; 9616; 9791; 9840; 9909 ].

(** [idx in listed]. *)
Definition is_listed (idx : Z) : bool := existsb (Z.eqb idx) listed.

Fixpoint submit_loop (rounds : nat) (num_subgroups : Z) (output_dir : string)
    (idx : Z) (ranges : list (string * string)) (job_queue : list string)
    : prog (list string) :=
  match ranges with
  | [] => ret job_queue
  | (min_id, max_id) :: rest =>
      if negb (is_listed idx)
      then submit_loop rounds num_subgroups output_dir (idx + 1) rest job_queue
      else
        let csv_path :=
          path_join output_dir ("subgroup_" ++ format_03d idx ++ ".csv") in
        script_path <- create_query_job idx (min_id, max_id) csv_path ;;
        job_queue <- limit_jobs rounds job_queue MAX_JOBS_RUNNING ;;
        out <- run_sbatch cl script_path ;;
        job_id <- lift (parse_job_id out) ;;
        let job_queue := job_queue ++ [job_id] in      (* [job_queue.append(job_id)] *)
        emit_event (PrintSubmitted idx num_subgroups min_id max_id job_id) ;;;
        submit_loop rounds num_subgroups output_dir (idx + 1) rest job_queue
  end.

Definition submit_subgroup_jobs (rounds : nat) (index_csv : csv_file)
    (num_subgroups : Z) (output_dir : string) : prog (list string) :=
  emit_event (EnsureDir output_dir) ;;;
  let g := iter_id_ranges index_csv num_subgroups in
  job_queue <- submit_loop rounds num_subgroups output_dir 1 (yielded g) [] ;;
  match raised g with
  | Some e => raise e
  | None => ret job_queue
  end.

End Process.

(** The indexes [enumerate(..., start=idx)] gives to [n] items. *)
Fixpoint enumerated (idx : Z) (n : nat) : list Z :=
  match n with
  | O => []
  | S n' => idx :: enumerated (idx + 1) n'
  end.

(** The partitions that pass the driver's filter, out of [n], counted
    from [idx]. *)
Definition resubmitted (idx : Z) (n : nat) : list Z :=
  filter is_listed (enumerated idx n).

End Openalex.

(* ===================================================================== *)
(** * Merging the results: [data_mining_openalex/merge_query_chunks.py] *)
(* ===================================================================== *)

Module Merge.
Import Py Partitioner.

Inductive exc : Type :=
| StopIteration         (* [next(reader)] on a file with no row *)
| FileNotFoundError.    (* [open] on a name that is not there *)

(** The lines [merge_csv_files] prints. *)
Inductive message : Type :=
| Merging
| NothingToMerge
| Merged.

(** The input directory: the names [os.listdir] returns, in the order it
    returns them, each with the rows [csv.reader] reads from that file.
    The output file is taken to be none of the files read. *)
Definition directory : Type := list (string * csv_file).

Definition listdir (d : directory) : list string := map fst d.

(** [open(os.path.join(input_dir, filename))], read as CSV. *)
Definition open_file (d : directory) (filename : string) : option csv_file :=
  option_map snd (find (fun e => String.eqb (fst e) filename) d).

(** [s.endswith(suffix)]. *)
Fixpoint endswith (s suffix : string) : bool :=
  String.eqb s suffix ||
  match s with
  | EmptyString => false
  | String _ s' => endswith s' suffix
  end.

(** [sorted] on [str] values, by insertion. *)
Fixpoint insert (x : string) (l : list string) : list string :=
  match l with
  | [] => [x]
  | y :: l' => if String.leb x y then x :: l else y :: insert x l'
  end.

Definition sorted (l : list string) : list string := fold_right insert [] l.

(** The [for filename in all_files] loop; [out] is what the writer has
    written so far. *)
Fixpoint merge_loop (d : directory) (all_files : list string)
    (header_written : bool) (out : list row) : list row * option exc :=
  match all_files with
  | [] => (out, None)
  | filename :: rest =>
      match open_file d filename with
      | None => (out, Some FileNotFoundError)
      | Some [] => (out, Some StopIteration)           (* [next(reader)] *)
      | Some (header :: rows) =>
          let out := if header_written then out else out ++ [header] in
          merge_loop d rest true (out ++ rows)
      end
  end.

(** What a call leaves behind: the lines printed, the content of the
    output file if it was opened, and the exception that ended the call,
    if any. *)
Record result : Type := mkResult {
  printed : list message;
  written : option (list row);
  error : option exc
}.

(** [merge_csv_files(input_dir, output_file)]. *)
Definition merge_csv_files (input_dir : directory) : result :=
  let all_files :=
    sorted (filter (fun f => endswith f ".csv") (listdir input_dir)) in
  match all_files with
  | [] => mkResult [Merging; NothingToMerge] None None
  | _ =>
      match merge_loop input_dir all_files false [] with
      | (out, None) => mkResult [Merging; Merged] (Some out) None
      | (out, Some e) => mkResult [Merging] (Some out) (Some e)
      end
  end.

(** The entries of a directory whose name ends in [.csv]. *)
Definition csv_entries (d : directory) : directory :=
  filter (fun e => endswith (fst e) ".csv") d.

(** Entries in ascending order of their names. *)
Definition by_name (files : directory) : Prop :=
  StronglySorted (fun a b => str_le (fst a) (fst b)) files.

(** The rows after the header. *)
Definition data_rows (e : string * csv_file) : list row := tl (snd e).

(** A directory with two result files, a file that is no CSV file, and
    the listing out of order. *)
Definition two_results : directory :=
  [ ("subgroup_002.csv", [["id"; "year"]; ["W3"; "2001"]]);
    ("notes.txt", [["hello"]]);
    ("subgroup_001.csv", [["id"; "year"]; ["W1"; "1999"]; ["W2"; "2000"]]) ]%string.

(** The same with an empty result file between the two. *)
Definition with_empty_result : directory :=
  [ ("subgroup_003.csv", [["id"; "year"]; ["W3"; "2001"]]);
    ("subgroup_002.csv", []);
    ("subgroup_001.csv", [["id"; "year"]; ["W1"; "1999"]; ["W2"; "2000"]]) ]%string.

End Merge.

Import Py Partitioner Cluster.

(* ===================================================================== *)
(** * Properties of the Python primitives *)
(* ===================================================================== *)

Lemma str_truthy_iff (s : string) : str_truthy s = true <-> s <> EmptyString.
Proof. destruct s; simpl; split; congruence. Qed.


Lemma ascii_compare_refl (a : ascii) : Ascii.compare a a = Eq.
Proof. unfold Ascii.compare. apply N.compare_refl. Qed.

Lemma ascii_compare_lt_trans (a b c : ascii) :
  Ascii.compare a b = Lt -> Ascii.compare b c = Lt -> Ascii.compare a c = Lt.
Proof.
  unfold Ascii.compare. rewrite !N.compare_lt_iff. apply N.lt_trans.
Qed.


Lemma str_compare_lt_trans (a b c : string) :
  String.compare a b = Lt -> String.compare b c = Lt -> String.compare a c = Lt.
Proof.
  revert b c.
  induction a as [|x a IH]; intros [|y b] [|z c]; simpl; try congruence.
  destruct (Ascii.compare x y) eqn:Exy; try discriminate;
    destruct (Ascii.compare y z) eqn:Eyz; try discriminate; intros Hab Hbc.
  - apply Ascii.compare_eq_iff in Exy, Eyz. subst.
    rewrite ascii_compare_refl. eauto.
  - apply Ascii.compare_eq_iff in Exy. subst. rewrite Eyz. reflexivity.
  - apply Ascii.compare_eq_iff in Eyz. subst. rewrite Exy. reflexivity.
  - rewrite (ascii_compare_lt_trans _ _ _ Exy Eyz). reflexivity.
Qed.

Lemma str_lt_trans (a b c : string) : str_lt a b -> str_lt b c -> str_lt a c.
Proof.
  unfold str_lt, String.ltb. intros Hab Hbc.
  destruct (String.compare a b) eqn:Eab; try discriminate.
  destruct (String.compare b c) eqn:Ebc; try discriminate.
  rewrite (str_compare_lt_trans _ _ _ Eab Ebc). reflexivity.
Qed.

Lemma str_lt_le (a b : string) : str_lt a b -> str_le a b.
Proof.
  unfold str_lt, str_le, String.ltb, String.leb.
  destruct (String.compare a b); congruence.
Qed.


Lemma str_le_trans (a b c : string) : str_le a b -> str_le b c -> str_le a c.
Proof.
  unfold str_le, String.leb. intros Hab Hbc.
  destruct (String.compare a b) eqn:Eab; try discriminate.
  - apply String.compare_eq_iff in Eab. subst. exact Hbc.
  - destruct (String.compare b c) eqn:Ebc; try discriminate.
    + apply String.compare_eq_iff in Ebc. subst. rewrite Eab. reflexivity.
    + rewrite (str_compare_lt_trans _ _ _ Eab Ebc). reflexivity.
Qed.




(* ===================================================================== *)
(** * Properties of [chunks] *)
(* ===================================================================== *)

Section Chunks.

Context {A : Type}.
Implicit Types (l p : list A) (c : nat).

Lemma chunks_nil c : chunks c (@nil A) = [].
Proof. destruct c; simp chunks; reflexivity. Qed.

Lemma chunks_cons c x l :
  chunks (S c) (x :: l) = (x :: firstn c l) :: chunks (S c) (skipn c l).
Proof. simp chunks. reflexivity. Qed.

(** A chunk's worth of elements in front of a list is its first chunk. *)
Lemma chunks_app c p l :
  (1 <= c)%nat -> length p = c -> chunks c (p ++ l) = p :: chunks c l.
Proof.
  intros Hc Hp. destruct c as [|c]; [lia|].
  destruct p as [|x p]; simpl in Hp; [lia|].
  simpl. rewrite chunks_cons.
  assert (Hlen : length p = c) by lia.
  rewrite <- Hlen at 1 3.
  rewrite firstn_app, Nat.sub_diag, firstn_all, firstn_O, app_nil_r.
  rewrite skipn_app, Nat.sub_diag, skipn_all, skipn_O. reflexivity.
Qed.

(** Fewer elements than a chunk holds make one chunk. *)
Lemma chunks_short c p :
  p <> [] -> (length p <= c)%nat -> chunks c p = [p].
Proof.
  intros Hp Hlen. destruct p as [|x p]; [congruence|].
  destruct c as [|c]; simpl in Hlen; [lia|].
  rewrite chunks_cons, firstn_all2, skipn_all2, chunks_nil by lia.
  reflexivity.
Qed.

(** The first chunk and the chunks of what follows it. *)
Lemma chunks_unfold c l :
  (1 <= c)%nat -> l <> [] ->
  chunks c l = firstn c l :: chunks c (skipn c l).
Proof.
  intros Hc Hl. destruct c as [|c]; [lia|].
  destruct l as [|x l]; [congruence|].
  rewrite chunks_cons. reflexivity.
Qed.

Lemma concat_chunks c l : (1 <= c)%nat -> concat (chunks c l) = l.
Proof.
  intros Hc. funelim (chunks c l); simp chunks; try reflexivity; [lia|].
  simpl. rewrite H by lia. simpl. f_equal. apply firstn_skipn.
Qed.

Lemma chunks_nonempty c l : Forall (fun ch => ch <> []) (chunks c l).
Proof.
  funelim (chunks c l); simp chunks; try constructor; auto. discriminate.
Qed.

Lemma chunks_length_le c l :
  Forall (fun ch => (length ch <= c)%nat) (chunks c l).
Proof.
  funelim (chunks c l); simp chunks; try constructor; auto.
  simpl. rewrite length_firstn. lia.
Qed.

(** Every chunk but the last is full. *)
Lemma chunks_init_full c l init lastc :
  chunks c l = init ++ [lastc] ->
  Forall (fun ch => length ch = c) init.
Proof.
  revert init. funelim (chunks c l); simp chunks; intros init Heq.
  - destruct init; discriminate.
  - destruct init; discriminate.
  - destruct init as [|ch init]; [constructor|].
    simpl in Heq. injection Heq as Hch Hrest.
    constructor; [|eapply H; eauto].
    subst ch. simpl. rewrite length_firstn.
    destruct (Nat.le_gt_cases c' (length l)) as [Hle|Hgt]; [lia|].
    rewrite skipn_all2, chunks_nil in Hrest by lia.
    destruct init; discriminate.
Qed.

Lemma length_chunks c l :
  (1 <= c)%nat -> length (chunks c l) = ceil_div (length l) c.
Proof.
  intros Hc. unfold ceil_div. funelim (chunks c l); simp chunks.
  - lia.
  - cbn [length]. rewrite Nat.div_small by lia. reflexivity.
  - cbn [length]. rewrite H by lia. rewrite length_skipn.
    destruct (Nat.le_gt_cases c' (length l)) as [Hle|Hgt].
    + replace (S (length l) + S c' - 1)%nat
        with ((length l - c' + S c' - 1) + 1 * S c')%nat by lia.
      rewrite Nat.div_add by lia. lia.
    + replace (length l - c')%nat with 0%nat by lia.
      rewrite (Nat.div_small (0 + S c' - 1)) by lia.
      assert (Hq : ((S (length l) + S c' - 1) / S c' = 1)%nat).
      { replace (S (length l) + S c' - 1)%nat
          with (length l + 1 * S c')%nat by lia.
        rewrite Nat.div_add, Nat.div_small by lia. reflexivity. }
      lia.
Qed.

(** The [j]-th chunk is the [c] elements from position [j * c] on. *)
Lemma nth_error_chunks c l j :
  (1 <= c)%nat -> (j * c < length l)%nat ->
  nth_error (chunks c l) j = Some (firstn c (skipn (j * c) l)).
Proof.
  intros Hc. revert l. induction j as [|j IH]; intros l Hj.
  - destruct l as [|x l]; simpl in Hj; [lia|].
    rewrite chunks_unfold by (lia || discriminate). reflexivity.
  - assert (Hl : l <> []) by (destruct l; simpl in Hj; [lia|discriminate]).
    rewrite chunks_unfold by assumption. simpl nth_error.
    rewrite IH by (rewrite length_skipn; simpl in Hj; lia).
    rewrite skipn_skipn. do 3 f_equal. simpl. lia.
Qed.

Lemma nth_error_chunks_inv c l j ch :
  (1 <= c)%nat -> nth_error (chunks c l) j = Some ch ->
  (j * c < length l)%nat /\ ch = firstn c (skipn (j * c) l).
Proof.
  intros Hc Hn.
  assert (Hj : (j < length (chunks c l))%nat)
    by (apply nth_error_Some; congruence).
  rewrite length_chunks in Hj by assumption. unfold ceil_div in Hj.
  assert (Hlt : (j * c < length l)%nat).
  { destruct (Nat.le_gt_cases (length l) (j * c)) as [Hle|]; [|assumption].
    exfalso.
    assert ((length l + c - 1) / c <= (j * c + c - 1) / c)%nat
      by (apply Nat.Div0.div_le_mono; lia).
    replace (j * c + c - 1)%nat with ((c - 1) + j * c)%nat in H by lia.
    rewrite Nat.div_add, (Nat.div_small (c - 1) c) in H by lia. lia. }
  split; [assumption|].
  rewrite nth_error_chunks in Hn by assumption. congruence.
Qed.

End Chunks.

(* ===================================================================== *)
(** * What [iter_id_ranges] yields *)
(* ===================================================================== *)

Lemma first_truthy_snoc (p : list string) (x : string) :
  first_truthy (p ++ [x]) =
  if str_truthy (first_truthy p) then first_truthy p else x.
Proof.
  unfold first_truthy. induction p as [|y p IH]; simpl.
  - destruct x; reflexivity.
  - destruct (str_truthy y) eqn:Ey; [rewrite Ey; reflexivity|exact IH].
Qed.

Lemma first_truthy_nonempty (ch : list string) :
  Forall (fun i => str_truthy i = true) ch -> first_truthy ch = hd EmptyString ch.
Proof.
  unfold first_truthy. intros H. destruct H as [|x l Hx _]; simpl; [reflexivity|].
  rewrite Hx. reflexivity.
Qed.



Lemma loop_state_snoc (p : list string) (x : string) (r : row) :
  item0 r = inr x ->
  loop_state (p ++ [x]) (Some (first_truthy (p ++ [x]))) (Some r).
Proof.
  intros Hr. unfold loop_state.
  destruct (p ++ [x]) eqn:Epx; [destruct p; discriminate|].
  rewrite <- Epx. split; [reflexivity|].
  exists r. rewrite last_last. auto.
Qed.

(** The loop, started inside a chunk of which [p] was read, yields what
    the chunks of [p] followed by the unread identifiers emit. *)
Lemma chunk_loop_emit (c : nat) (rows : list row) (ids : list string) :
  (1 <= c)%nat ->
  Forall2 (fun r i => item0 r = inr i) rows ids ->
  forall p first_id cur,
    (length p < c)%nat ->
    loop_state p first_id cur ->
    chunk_loop (Z.of_nat c) first_id (Z.of_nat (length p)) cur rows =
    mkGen (flat_map (emit c) (chunks c (p ++ ids))) None.
Proof.
  intros Hc Hrows.
  induction Hrows as [|r x rows ids Hr _ IH]; intros p first_id cur Hp Hst.
  - rewrite app_nil_r. simpl.
    destruct p as [|y p].
    + simpl in Hst. subst first_id. rewrite chunks_nil. reflexivity.
    + destruct Hst as [-> [r [-> Hr]]].
      rewrite chunks_short by (discriminate || lia).
      simpl flat_map. unfold emit.
      replace (length (y :: p) =? c)%nat with false
        by (symmetry; apply Nat.eqb_neq; lia).
      destruct (str_truthy (first_truthy (y :: p))); [|reflexivity].
      rewrite Hr. reflexivity.
  - assert (Hfid :
      match first_id with
      | Some fid => if str_truthy fid then inr fid else item0 r
      | None => item0 r
      end = inr (first_truthy (p ++ [x]))).
    { rewrite first_truthy_snoc. destruct p as [|y p].
      - simpl in Hst. subst first_id. simpl. exact Hr.
      - destruct Hst as [-> _].
        destruct (str_truthy (first_truthy (y :: p))); [reflexivity|exact Hr]. }
    cbn [chunk_loop]. rewrite Hfid. cbv zeta.
    replace (Z.of_nat (length p) + 1) with (Z.of_nat (length (p ++ [x])))
      by (rewrite length_app; simpl; lia).
    replace (p ++ x :: ids) with ((p ++ [x]) ++ ids)
      by (rewrite <- app_assoc; reflexivity).
    assert (Hlen : length (p ++ [x]) = S (length p))
      by (rewrite length_app; simpl; lia).
    destruct (Z.eqb_spec (Z.of_nat (length (p ++ [x]))) (Z.of_nat c)) as [Heq|Hne].
    + apply Nat2Z.inj in Heq.
      pose proof (IH [] None (@Some row r)) as IH0.
      cbn [length Z.of_nat app] in IH0.
      rewrite Hr. cbv beta iota. rewrite IH0 by (lia || reflexivity).
      rewrite chunks_app by assumption.
      assert (Hemit : emit c (p ++ [x]) = [(first_truthy (p ++ [x]), x)])
        by (unfold emit; rewrite Heq, Nat.eqb_refl, last_last; reflexivity).
      cbn [flat_map]. rewrite Hemit. reflexivity.
    + apply IH; [lia|]. apply loop_state_snoc. exact Hr.
Qed.

(** The chunk size the generator computes. *)
Lemma chunk_size_ceil (n k : nat) :
  (1 <= k)%nat ->
  (Z.of_nat n + Z.of_nat k - 1) / Z.of_nat k = Z.of_nat (ceil_div n k).
Proof.
  intros Hk. unfold ceil_div.
  rewrite Nat2Z.inj_div, Nat2Z.inj_sub, Nat2Z.inj_add by lia. reflexivity.
Qed.

Lemma ceil_div_pos (n k : nat) : (1 <= k)%nat -> (1 <= n)%nat -> (1 <= ceil_div n k)%nat.
Proof.
  intros Hk Hn. unfold ceil_div.
  replace (n + k - 1)%nat with ((n - 1) + 1 * k)%nat by lia.
  rewrite Nat.div_add by lia. lia.
Qed.


(** The generator on a well-formed index file: the pairs the chunks of
    [ceil(n / k)] identifiers emit, and no exception. *)
Lemma iter_id_ranges_emit (f : csv_file) (ids : list string) (k : Z) :
  index_file f ids -> 1 <= k -> (1 <= length ids)%nat ->
  iter_id_ranges f k =
  mkGen (flat_map (emit (ceil_div (length ids) (Z.to_nat k)))
                  (chunks (ceil_div (length ids) (Z.to_nat k)) ids)) None.
Proof.
  intros (header & rows & -> & Hrows) Hk Hn.
  unfold iter_id_ranges, count_lines.
  replace (k =? 0) with false by (symmetry; apply Z.eqb_neq; lia).
  assert (Hlen : length rows = length ids) by (eapply Forall2_length; eauto).
  simpl length. rewrite Hlen.
  replace (Z.of_nat (S (length ids)) - 1 + k - 1)
    with (Z.of_nat (length ids) + Z.of_nat (Z.to_nat k) - 1) by lia.
  rewrite <- (Z2Nat.id k) at 2 by lia.
  rewrite chunk_size_ceil by lia.
  apply (chunk_loop_emit _ rows ids) with (p := []);
    [apply ceil_div_pos; lia|assumption| |reflexivity].
  simpl. apply ceil_div_pos; lia.
Qed.

(* ===================================================================== *)
(** * Partitions *)
(* ===================================================================== *)

Lemma index_file_of (ids : list string) : index_file (file_of ids) ids.
Proof.
  exists ["id"%string], (map (fun i => [i]) ids). split; [reflexivity|].
  induction ids; simpl; constructor; auto.
Qed.

Lemma ascendingb_sound (l : list string) : ascendingb l = true -> sorted_ids l.
Proof.
  unfold sorted_ids. induction l as [|x [|y l] IH]; intros H.
  - constructor.
  - repeat constructor.
  - cbn [ascendingb] in H. apply andb_true_iff in H. destruct H as [Hxy Hl].
    constructor; [apply IH; exact Hl|]. constructor. exact Hxy.
Qed.

Lemma covers_coversb (ids : list string) (p : string * string) (m : nat) :
  covers ids p m -> coversb ids p m = true.
Proof.
  intros (i & Hm & Hi & Hlo & Hhi). unfold coversb.
  apply andb_true_iff. split; [apply Nat.leb_le; exact Hm|].
  apply existsb_exists. exists i. split; [apply in_seq; lia|].
  rewrite Hlo, Hhi, !String.eqb_refl.
  apply andb_true_iff. split; [apply Nat.leb_le; exact Hi|reflexivity].
Qed.

Section SortedChunks.

Variable R : string -> string -> Prop.
Hypothesis R_refl : forall a, R a a.





End SortedChunks.


Lemma Forall_chunks {A : Type} (P : A -> Prop) (c : nat) (l : list A) :
  (1 <= c)%nat -> Forall P l -> Forall (Forall P) (chunks c l).
Proof.
  intros Hc Hl. rewrite Forall_forall. intros ch Hch.
  rewrite Forall_forall in *. intros y Hy. apply Hl.
  rewrite <- (concat_chunks c l Hc). apply in_concat. eauto.
Qed.

(** On identifiers that are all non-empty every chunk emits its bounds. *)
Lemma emit_bounds (c : nat) (ch : list string) :
  ch <> [] -> Forall (fun i => str_truthy i = true) ch ->
  emit c ch = [bounds ch].
Proof.
  intros Hne Hall. unfold emit, bounds.
  rewrite first_truthy_nonempty by assumption.
  destruct ch as [|x ch]; [congruence|].
  inversion Hall; subst. simpl hd.
  replace (str_truthy x) with true by congruence.
  destruct (length (x :: ch) =? c)%nat; reflexivity.
Qed.

Lemma flat_map_emit_bounds (c : nat) (l : list string) :
  (1 <= c)%nat -> Forall (fun i => str_truthy i = true) l ->
  flat_map (emit c) (chunks c l) = map bounds (chunks c l).
Proof.
  intros Hc Hl.
  pose proof (Forall_chunks _ c l Hc Hl) as Hall.
  pose proof (chunks_nonempty c l) as Hne.
  induction (chunks c l) as [|ch cs IH]; [reflexivity|].
  inversion Hall; inversion Hne; subst.
  cbn [flat_map map]. rewrite emit_bounds, IH by assumption. reflexivity.
Qed.

Lemma nonempty_truthy (ids : list string) :
  Forall (fun i => i <> EmptyString) ids ->
  Forall (fun i => str_truthy i = true) ids.
Proof.
  apply Forall_impl. intros i. apply str_truthy_iff.
Qed.

Lemma all_nonempty_sound (l : list string) :
  forallb str_truthy l = true -> Forall (fun i => i <> EmptyString) l.
Proof.
  intros H. rewrite forallb_forall in H. apply Forall_forall.
  intros x Hx. apply str_truthy_iff. auto.
Qed.




(** C8.  For every index file that is a header line and no data row, and
    every target count [k >= 1], [iter_id_ranges] yields nothing (and
    ends normally). *)
Theorem iter_id_ranges_header_only (f : csv_file) (k : Z) :
  index_file f [] -> 1 <= k ->
  iter_id_ranges f k = mkGen [] None.
Proof.
  intros (header & rows & -> & Hrows) Hk. inversion Hrows; subst.
  unfold iter_id_ranges.
  replace (k =? 0) with false by (symmetry; apply Z.eqb_neq; lia).
  reflexivity.
Qed.

Lemma iter_id_ranges_header_only_witness :
  iter_id_ranges (file_of []) 10000 = mkGen [] None.
Proof.
  apply (iter_id_ranges_header_only (file_of []) 10000).
  - apply index_file_of.
  - lia.
Defined.

(* --------------------------------------------------------------------- *)
(** ** How many pairs *)










(* --------------------------------------------------------------------- *)
(** ** Empty identifiers *)







(* --------------------------------------------------------------------- *)
(** ** 95 identifiers, 10 partitions *)

Lemma hd_firstn_skipn {A : Type} (l : list A) (i m : nat) (d : A) :
  (1 <= m)%nat -> hd d (firstn m (skipn i l)) = nth i l d.
Proof.
  intros Hm. rewrite <- (Nat.add_0_r i) at 2. rewrite <- nth_skipn.
  destruct m; [lia|]. destruct (skipn i l); reflexivity.
Qed.

Lemma last_nth {A : Type} (l : list A) (d : A) :
  last l d = nth (length l - 1) l d.
Proof.
  induction l as [|x l IH]; [reflexivity|].
  destruct l as [|y l]; [reflexivity|].
  change (last (x :: y :: l) d) with (last (y :: l) d). rewrite IH.
  cbn [length]. rewrite !Nat.sub_succ, !Nat.sub_0_r. reflexivity.
Qed.

Lemma last_firstn_skipn {A : Type} (l : list A) (i m : nat) (d : A) :
  (1 <= m)%nat -> (i + m <= length l)%nat ->
  last (firstn m (skipn i l)) d = nth (i + m - 1) l d.
Proof.
  intros Hm Hi. rewrite last_nth, length_firstn, length_skipn.
  rewrite Nat.min_l by lia. rewrite nth_firstn.
  replace (m - 1 <? m)%nat with true by (symmetry; apply Nat.ltb_lt; lia).
  rewrite nth_skipn. f_equal. lia.
Qed.

(** The [j]-th pair of a file of non-empty identifiers, by position. *)
Lemma nth_error_bounds_chunks (c : nat) (ids : list string) (j m : nat) :
  (1 <= c)%nat -> (1 <= m)%nat -> (j * c + m <= length ids)%nat ->
  m = Nat.min c (length ids - j * c) ->
  nth_error (map bounds (chunks c ids)) j =
  Some (nth (j * c) ids EmptyString, nth (j * c + m - 1) ids EmptyString).
Proof.
  intros Hc Hm Hj Hmin.
  rewrite nth_error_map, nth_error_chunks by lia. cbn [option_map].
  unfold bounds. rewrite hd_firstn_skipn by lia.
  assert (Hcut : firstn c (skipn (j * c) ids) = firstn m (skipn (j * c) ids)).
  { destruct (Nat.le_gt_cases c (length ids - j * c)) as [Hle|Hgt].
    - rewrite Nat.min_l in Hmin by assumption. subst m. reflexivity.
    - rewrite Nat.min_r in Hmin by lia.
      rewrite !firstn_all2 by (rewrite length_skipn; lia). reflexivity. }
  rewrite Hcut, last_firstn_skipn by lia. reflexivity.
Qed.

(** C3, amended.  Partitioning an index file of exactly 95 non-empty
    identifiers with target count 10 yields exactly 10 pairs: the
    [j]-th of the first nine is (id[10j], id[10j + 9]) and covers 10
    consecutive identifiers, the tenth is (id[90], id[94]) and covers
    the remaining 5; so the first pair starts at the first identifier
    and the last pair ends at the 95th. *)
Theorem iter_id_ranges_95_by_10 (f : csv_file) (ids : list string) :
  index_file f ids -> length ids = 95%nat ->
  Forall (fun i => i <> EmptyString) ids ->
  raised (iter_id_ranges f 10) = None /\
  length (yielded (iter_id_ranges f 10)) = 10%nat /\
  (forall j, (j < 9)%nat ->
     exists p, nth_error (yielded (iter_id_ranges f 10)) j = Some p /\
       p = (nth (10 * j) ids EmptyString, nth (10 * j + 9) ids EmptyString) /\
       covers ids p 10) /\
  (exists p, nth_error (yielded (iter_id_ranges f 10)) 9 = Some p /\
     p = (nth 90 ids EmptyString, nth 94 ids EmptyString) /\
     covers ids p 5).
Proof.
  intros Hf Hlen Hne.
  rewrite (iter_id_ranges_emit f ids 10) by (assumption || lia).
  rewrite Hlen. change (ceil_div 95 (Z.to_nat 10)) with 10%nat.
  rewrite flat_map_emit_bounds by (lia || auto using nonempty_truthy).
  cbn [raised yielded].
  split; [reflexivity|].
  split; [rewrite length_map, length_chunks, Hlen by lia; reflexivity|].
  split.
  - intros j Hj. eexists. split; [|split; [reflexivity|]].
    + rewrite (nth_error_bounds_chunks 10 ids j 10) by lia.
      do 2 f_equal; f_equal; lia.
    + exists (10 * j)%nat. cbn [fst snd].
      repeat split; try lia; rewrite (nth_error_nth' ids EmptyString) by lia;
        do 2 f_equal; lia.
  - eexists. split; [|split; [reflexivity|]].
    + rewrite (nth_error_bounds_chunks 10 ids 9 5) by lia. reflexivity.
    + exists 90%nat. cbn [fst snd].
      repeat split; try lia; rewrite (nth_error_nth' ids EmptyString) by lia;
        reflexivity.
Qed.

Lemma iter_id_ranges_95_by_10_witness :
  raised (iter_id_ranges (file_of (sample_ids 95)) 10) = None /\
  length (yielded (iter_id_ranges (file_of (sample_ids 95)) 10)) = 10%nat.
Proof.
  assert (H := iter_id_ranges_95_by_10 (file_of (sample_ids 95)) (sample_ids 95)
                 (index_file_of _) eq_refl).
  split; apply H; apply all_nonempty_sound; vm_compute; reflexivity.
Defined.

(** C3, as stated, fails on 95 ascending identifiers: the tenth pair
    covers 5 identifiers, neither 9 nor 10. *)
Lemma iter_id_ranges_95_last_pair_covers_5 :
  index_file (file_of (sample_ids 95)) (sample_ids 95) /\
  sorted_ids (sample_ids 95) /\
  length (sample_ids 95) = 95%nat /\
  nth_error (yielded (iter_id_ranges (file_of (sample_ids 95)) 10)) 9 =
    Some ("W0090", "W0094")%string /\
  covers (sample_ids 95) ("W0090", "W0094")%string 5 /\
  ~ ten_pairs_of_9_or_10 (sample_ids 95)
      (yielded (iter_id_ranges (file_of (sample_ids 95)) 10)).
Proof.
  assert (Hlast :
    nth_error (yielded (iter_id_ranges (file_of (sample_ids 95)) 10)) 9 =
    Some ("W0090", "W0094")%string) by (vm_compute; reflexivity).
  split; [apply index_file_of|].
  split; [apply ascendingb_sound; vm_compute; reflexivity|].
  split; [reflexivity|].
  split; [exact Hlast|].
  split; [exists 90%nat; vm_compute; repeat split; lia|].
  intros (_ & Hall & _).
  rewrite Forall_forall in Hall.
  destruct (Hall _ (nth_error_In _ _ Hlast)) as [H|H];
    apply covers_coversb in H; vm_compute in H; discriminate.
Qed.

(* ===================================================================== *)
(** * The admission gate *)
(* ===================================================================== *)


Section Gate.

Variable cl : cluster.

(** The probing loop always ends; what it returns and where it leaves
    the world are [pruned] and [probed]. *)
Lemma still_running_done (job_queue : list string) (w : world) :
  exists l w', still_running cl job_queue w = (Done l, w').
Proof.
  revert w. induction job_queue as [|job rest IH]; intros w.
  - exists [], w. reflexivity.
  - cbn [still_running]. unfold bind, run_squeue, external. cbv beta iota.
    destruct (IH (mkWorld (S (now w)) (RunSqueue job :: log w)))
      as (l & w' & E).
    rewrite E. eexists. eexists. reflexivity.
Qed.

Lemma still_running_run (job_queue : list string) (w : world) :
  still_running cl job_queue w =
  (Done (pruned cl job_queue w), probed cl job_queue w).
Proof.
  unfold pruned, probed.
  destruct (still_running_done job_queue w) as (l & w' & E).
  rewrite E. reflexivity.
Qed.

Lemma still_running_cons (job : string) (rest : list string) (w : world) :
  still_running cl (job :: rest) w =
  let w' := mkWorld (S (now w)) (RunSqueue job :: log w) in
  (Done (if str_truthy (strip (squeue cl (now w) job))
         then job :: pruned cl rest w' else pruned cl rest w'),
   probed cl rest w').
Proof.
  cbn [still_running]. unfold bind, run_squeue, external. cbv beta iota zeta.
  rewrite still_running_run. reflexivity.
Qed.

Lemma pruned_cons (job : string) (rest : list string) (w : world) :
  pruned cl (job :: rest) w =
  let w' := mkWorld (S (now w)) (RunSqueue job :: log w) in
  if str_truthy (strip (squeue cl (now w) job))
  then job :: pruned cl rest w' else pruned cl rest w'.
Proof.
  unfold pruned at 1. rewrite still_running_cons. reflexivity.
Qed.

Lemma probed_cons (job : string) (rest : list string) (w : world) :
  probed cl (job :: rest) w =
  probed cl rest (mkWorld (S (now w)) (RunSqueue job :: log w)).
Proof.
  unfold probed at 1. rewrite still_running_cons. reflexivity.
Qed.

(** Probing the queue asks the database nothing. *)
Lemma pg_queries_probed (job_queue : list string) (w : world) :
  pg_queries (probed cl job_queue w) = pg_queries w.
Proof.
  revert w. induction job_queue as [|job rest IH]; intros w; [reflexivity|].
  rewrite probed_cons, IH. reflexivity.
Qed.


(** Pruning only removes handles. *)
Lemma pruned_length (job_queue : list string) (w : world) :
  (length (pruned cl job_queue w) <= length job_queue)%nat.
Proof.
  revert w. induction job_queue as [|job rest IH]; intros w; [simpl; lia|].
  rewrite pruned_cons. cbv zeta.
  destruct (str_truthy _); simpl;
    specialize (IH (mkWorld (S (now w)) (RunSqueue job :: log w))); lia.
Qed.

(** One round, case by case. *)
Lemma limit_jobs_round_eq (job_queue : list string) (max_jobs_running : Z)
    (w : world) :
  limit_jobs_round cl job_queue max_jobs_running w =
  let q := pruned cl job_queue w in
  let w1 := probed cl job_queue w in
  let n := Z.of_nat (length q) in
  if n <? max_jobs_running - 150 then (Done (Release q), released n 5 w1)
  else
    let w2 := if n <? max_jobs_running - 20 then asked 30 w1 else w1 in
    if (n <? max_jobs_running - 20) && (free_slots (pg_stat cl (now w1)) >? 30)
    then (Done (Release q), released n 5 w2)
    else
      let w3 := if n <? max_jobs_running then asked 15 w2 else w2 in
      if (n <? max_jobs_running) && (free_slots (pg_stat cl (now w2)) >? 15)
      then (Done (Release q), released n 15 w3)
      else (Done (Retry q), mkWorld (now w3) (Sleep 30 :: log w3)).
Proof.
  unfold limit_jobs_round. unfold bind at 1. rewrite still_running_run.
  cbv zeta.
  destruct (_ <? max_jobs_running - 150); [reflexivity|].
  destruct (_ <? max_jobs_running - 20);
    [unfold bind at 1; cbn;
     destruct (free_slots (pg_stat cl (now (probed cl job_queue w))) >? 30);
     [reflexivity|]
    |unfold bind at 1; cbn];
    (destruct (_ <? max_jobs_running);
     [unfold bind at 1; cbn; destruct (free_slots _ >? 15); reflexivity
     |reflexivity]).
Qed.

End Gate.

Lemma still_running_ext (cl cl' : cluster) (job_queue : list string) (w : world) :
  (forall t job, squeue cl' t job = squeue cl t job) ->
  still_running cl' job_queue w = still_running cl job_queue w.
Proof.
  intros Hsq. revert w. induction job_queue as [|job rest IH]; intros w;
    [reflexivity|].
  rewrite !still_running_cons. cbv zeta. unfold pruned, probed.
  rewrite IH, Hsq. reflexivity.
Qed.

Lemma limit_jobs_unfold (cl : cluster) (rounds : nat) (job_queue : list string)
    (max_jobs_running : Z) (w : world) :
  limit_jobs cl (S rounds) job_queue max_jobs_running w =
  match limit_jobs_round cl job_queue max_jobs_running w with
  | (Done (Release q), w') => (Done q, w')
  | (Done (Retry q), w') => limit_jobs cl rounds q max_jobs_running w'
  | (Raised e, w') => (Raised e, w')
  | (Polling, w') => (Polling, w')
  end.
Proof.
  cbn [limit_jobs]. unfold bind.
  destruct (limit_jobs_round cl job_queue max_jobs_running w) as [[[q|q]|e|] w'];
    reflexivity.
Qed.

(** A round in which no release condition holds sleeps and goes round
    again. *)
Lemma limit_jobs_round_retry (cl : cluster) (job_queue : list string)
    (max_jobs_running : Z) (w : world) :
  let q := pruned cl job_queue w in
  let w1 := probed cl job_queue w in
  let n := Z.of_nat (length q) in
  ~ tier1 n max_jobs_running ->
  ~ tier2 cl n max_jobs_running w1 ->
  ~ tier3 cl n max_jobs_running w1 ->
  limit_jobs_round cl job_queue max_jobs_running w =
  (Done (Retry q), waited n max_jobs_running w1).
Proof.
  intros q w1 n H1 H2 H3. rewrite limit_jobs_round_eq. cbv zeta.
  change (pruned cl job_queue w) with q.
  change (probed cl job_queue w) with w1.
  change (Z.of_nat (length q)) with n.
  clearbody n w1 q.
  unfold tier1, tier2, tier3, waited, asked in *. revert H2 H3.
  destruct (Z.ltb_spec n (max_jobs_running - 150)) as [|_]; [contradiction|].
  destruct (Z.ltb_spec n (max_jobs_running - 20)) as [Hlt2|Hge2];
    destruct (Z.ltb_spec n max_jobs_running) as [Hlt3|Hge3];
    cbn [andb now log]; intros H2 H3;
    repeat match goal with
           | |- context [free_slots ?s >? ?t] =>
               destruct (Z.gtb_spec (free_slots s) t)
           end;
    try reflexivity; exfalso;
    ((apply H2; split; lia) || (apply H3; split; lia)).
Qed.

(** C2.  While the live in-flight count is at the ceiling or above it and
    the database has no more than 15 free slots, a call of [limit_jobs]
    does not return: in each such round it sleeps 30 seconds and polls
    again, so however many rounds are granted the call is still polling.
    More generally a round in which none of the three release conditions
    holds sleeps and re-polls with the pruned list. *)
Theorem limit_jobs_holds_at_ceiling (cl : cluster) (max_jobs_running : Z) :
  (forall rounds job_queue w,
      (forall i, (i < rounds)%nat ->
         at_ceiling cl max_jobs_running
           (round_start cl max_jobs_running i job_queue w)) ->
      limit_jobs cl rounds job_queue max_jobs_running w =
      (Polling, snd (round_start cl max_jobs_running rounds job_queue w))) /\
  (forall rounds job_queue w,
      let q := pruned cl job_queue w in
      let w1 := probed cl job_queue w in
      let n := Z.of_nat (length q) in
      ~ tier1 n max_jobs_running ->
      ~ tier2 cl n max_jobs_running w1 ->
      ~ tier3 cl n max_jobs_running w1 ->
      In (Sleep 30) (log (waited n max_jobs_running w1)) /\
      limit_jobs cl (S rounds) job_queue max_jobs_running w =
      limit_jobs cl rounds q max_jobs_running (waited n max_jobs_running w1)).
Proof.
  split.
  - induction rounds as [|rounds IH]; intros job_queue w Hall; [reflexivity|].
    destruct (Hall 0%nat ltac:(lia)) as [Hn _]. cbn [round_start fst snd] in Hn.
    rewrite limit_jobs_unfold, limit_jobs_round_retry.
    + cbn [round_start]. apply IH. intros i Hi.
      apply (Hall (S i)). lia.
    + unfold tier1. lia.
    + unfold tier2. lia.
    + unfold tier3. lia.
  - intros rounds job_queue w q w1 n H1 H2 H3. split.
    + unfold waited. cbn. left. reflexivity.
    + rewrite limit_jobs_unfold.
      rewrite (limit_jobs_round_retry cl job_queue max_jobs_running w H1 H2 H3).
      reflexivity.
Qed.

Lemma limit_jobs_holds_at_ceiling_witness :
  limit_jobs busy_cluster 3 ["1000"; "1001"]%string 2 start =
  (Polling, snd (round_start busy_cluster 2 3 ["1000"; "1001"]%string start)).
Proof.
  apply (proj1 (limit_jobs_holds_at_ceiling busy_cluster 2) 3%nat
           ["1000"; "1001"]%string start).
  intros i Hi.
  destruct i as [|[|[|i]]]; [| | |lia]; split; vm_compute; congruence.
Defined.

(** C6.  When the pruned in-flight count is below
    [max_jobs_running - 150], [limit_jobs] returns the pruned list in
    that same round after a 5 second delay, the database probe is not
    queried, and the outcome is the same whatever the database (and the
    submission command) would have answered. *)
Theorem limit_jobs_tier1_skips_database (cl : cluster)
    (job_queue : list string) (max_jobs_running : Z) (w : world) (rounds : nat) :
  tier1 (Z.of_nat (length (pruned cl job_queue w))) max_jobs_running ->
  limit_jobs cl (S rounds) job_queue max_jobs_running w =
    (Done (pruned cl job_queue w),
     released (Z.of_nat (length (pruned cl job_queue w))) 5
              (probed cl job_queue w)) /\
  pg_queries (snd (limit_jobs cl (S rounds) job_queue max_jobs_running w)) =
    pg_queries w /\
  (forall cl',
      (forall t job, squeue cl' t job = squeue cl t job) ->
      limit_jobs cl' (S rounds) job_queue max_jobs_running w =
      limit_jobs cl (S rounds) job_queue max_jobs_running w).
Proof.
  intros H1. unfold tier1 in H1.
  assert (Hrun : forall c,
    (forall t job, squeue c t job = squeue cl t job) ->
    limit_jobs c (S rounds) job_queue max_jobs_running w =
    (Done (pruned cl job_queue w),
     released (Z.of_nat (length (pruned cl job_queue w))) 5
              (probed cl job_queue w))).
  { intros c Hc. rewrite limit_jobs_unfold, limit_jobs_round_eq. cbv zeta.
    unfold pruned, probed. rewrite (still_running_ext cl c) by exact Hc.
    fold (pruned cl job_queue w) (probed cl job_queue w).
    replace (_ <? max_jobs_running - 150) with true
      by (symmetry; apply Z.ltb_lt; exact H1).
    reflexivity. }
  split; [apply Hrun; reflexivity|].
  split.
  - rewrite (Hrun cl) by reflexivity. cbn [snd].
    unfold released, pg_queries. cbn [log flat_map app].
    apply (pg_queries_probed cl).
  - intros cl' Hsq. rewrite (Hrun cl') by exact Hsq.
    rewrite (Hrun cl) by reflexivity. reflexivity.
Qed.

Lemma limit_jobs_tier1_skips_database_witness :
  limit_jobs idle_cluster 1 ["1000"; "1001"]%string 180 start =
    (Done (pruned idle_cluster ["1000"; "1001"]%string start),
     released (Z.of_nat (length (pruned idle_cluster ["1000"; "1001"]%string start))) 5
              (probed idle_cluster ["1000"; "1001"]%string start)) /\
  pg_queries (snd (limit_jobs idle_cluster 1 ["1000"; "1001"]%string 180 start)) =
    pg_queries start /\
  (forall cl',
      (forall t job, squeue cl' t job = squeue idle_cluster t job) ->
      limit_jobs cl' 1 ["1000"; "1001"]%string 180 start =
      limit_jobs idle_cluster 1 ["1000"; "1001"]%string 180 start).
Proof.
  apply (limit_jobs_tier1_skips_database idle_cluster
           ["1000"; "1001"]%string 180 start 0).
  unfold tier1. vm_compute. reflexivity.
Defined.

(** Every returning branch of a round has the count below the ceiling. *)
Lemma limit_jobs_done_lt (cl : cluster) (rounds : nat) :
  forall (job_queue : list string) (max_jobs_running : Z) (w : world)
         (q : list string) (w' : world),
    limit_jobs cl rounds job_queue max_jobs_running w = (Done q, w') ->
    Z.of_nat (length q) < max_jobs_running.
Proof.
  induction rounds as [|rounds IH]; intros job_queue max_jobs_running w q w' Hrun;
    [discriminate|].
  rewrite limit_jobs_unfold, limit_jobs_round_eq in Hrun. cbv zeta in Hrun.
  destruct (Z.ltb_spec (Z.of_nat (length (pruned cl job_queue w)))
              (max_jobs_running - 150)) as [H1|H1];
    [injection Hrun as <- _; lia|].
  destruct (Z.ltb_spec (Z.of_nat (length (pruned cl job_queue w)))
              (max_jobs_running - 20)) as [H2|H2];
    cbn [andb] in Hrun;
    try (destruct (free_slots _ >? 30); [injection Hrun as <- _; lia|]);
    (destruct (Z.ltb_spec (Z.of_nat (length (pruned cl job_queue w)))
                max_jobs_running) as [H3|H3];
     cbn [andb] in Hrun;
     try (destruct (free_slots _ >? 15); [injection Hrun as <- _; lia|]);
     eapply IH; exact Hrun).
Qed.

(** C7.  Whenever [limit_jobs] returns, the list it returns is shorter
    than [max_jobs_running], so with the one handle the driver appends
    next it holds at most [max_jobs_running] handles. *)
Theorem limit_jobs_returns_below_ceiling (cl : cluster) (rounds : nat)
    (job_queue : list string) (max_jobs_running : Z) (w : world)
    (q : list string) (w' : world) :
  limit_jobs cl rounds job_queue max_jobs_running w = (Done q, w') ->
  Z.of_nat (length q) < max_jobs_running /\
  forall job_id, Z.of_nat (length (q ++ [job_id])) <= max_jobs_running.
Proof.
  intros Hrun. apply limit_jobs_done_lt in Hrun.
  split; [exact Hrun|].
  intros job_id. rewrite length_app. simpl. lia.
Qed.

Lemma limit_jobs_returns_below_ceiling_witness :
  Z.of_nat (length (@nil string)) < 180 /\
  forall job_id : string, Z.of_nat (length ([] ++ [job_id])) <= 180.
Proof.
  apply (limit_jobs_returns_below_ceiling idle_cluster 1
           ["1000"; "1001"]%string 180 start []
           (mkWorld 2 [Sleep 5; PrintJobsFinished 0;
                       RunSqueue "1001"%string; RunSqueue "1000"%string])).
  vm_compute. reflexivity.
Defined.

(* ===================================================================== *)
(** * The driver: parsing the handle *)
(* ===================================================================== *)

Lemma last_item_nil_iff {A : Type} (l : list A) :
  last_item l = inl IndexError <-> l = [].
Proof.
  unfold last_item. split.
  - destruct (rev l) eqn:E; [|discriminate]. intros _.
    rewrite <- (rev_involutive l), E. reflexivity.
  - intros ->. reflexivity.
Qed.















(* ===================================================================== *)
(** * The driver: what is returned *)
(* ===================================================================== *)

(** C4.  The list [submit_subgroup_jobs] returns is meant to hold the
    handle of every submitted job, and the closing line to report how
    many were submitted.  The code does not do that: in a run in which
    the first submitted job has left the queue when the second one is
    gated, two jobs are submitted (handles 1000 and 1002), the returned
    list holds only the handle still tracked, and the closing line
    reports 1 job. *)
Theorem submit_subgroup_jobs_returns_live_handles_only :
  index_file resume_file (sample_ids (Z.to_nat 5557)) /\
  sorted_ids (sample_ids (Z.to_nat 5557)) /\
  fst (submit_subgroup_jobs idle_cluster 1 resume_file NUM_SUBGROUPS
         SUBGROUP_RESULTS_DIR start) = Done ["1002"%string] /\
  submitted_handles
    (snd (submit_subgroup_jobs idle_cluster 1 resume_file NUM_SUBGROUPS
            SUBGROUP_RESULTS_DIR start)) = ["1000"; "1002"]%string /\
  submissions
    (snd (submit_subgroup_jobs idle_cluster 1 resume_file NUM_SUBGROUPS
            SUBGROUP_RESULTS_DIR start)) = 2%nat /\
  hd_error (log (snd (main idle_cluster 1 resume_file start))) =
    Some (PrintTotal 1).
Proof.
  split; [apply index_file_of|].
  split; [apply ascendingb_sound; vm_compute; reflexivity|].
  repeat split; vm_compute; reflexivity.
Qed.

Lemma create_query_job_done (idx : Z) (id_range : string * string)
    (output_csv : string) (w : world) :
  exists path w', create_query_job idx id_range output_csv w = (Done path, w').
Proof.
  unfold create_query_job, bind, emit_event, ret. cbv beta iota zeta.
  eexists. eexists. reflexivity.
Qed.

(** Every pass of the submission loop keeps the tracked list within
    [MAX_JOBS_RUNNING] handles. *)
Lemma submit_loop_keeps_ceiling (cl : cluster) (rounds : nat)
    (num_subgroups : Z) (output_dir : string) (ranges : list (string * string)) :
  forall (idx : Z) (job_queue : list string) (w : world)
         (q : list string) (w' : world),
    submit_loop cl rounds num_subgroups output_dir idx ranges job_queue w =
      (Done q, w') ->
    Z.of_nat (length job_queue) <= MAX_JOBS_RUNNING ->
    Z.of_nat (length q) <= MAX_JOBS_RUNNING.
Proof.
  induction ranges as [|[min_id max_id] rest IH];
    intros idx job_queue w q w' Hrun Hlen.
  - injection Hrun as <- _. exact Hlen.
  - cbn [submit_loop] in Hrun. destruct (idx <? 5556); [eauto|].
    unfold bind at 1 in Hrun.
    destruct (create_query_job_done idx (min_id, max_id)
                (path_join output_dir
                   ("subgroup_" ++ format_03d idx ++ ".csv")) w)
      as (path & w1 & E1).
    rewrite E1 in Hrun. unfold bind at 1 in Hrun.
    destruct (limit_jobs cl rounds job_queue MAX_JOBS_RUNNING w1)
      as [[q1|e|] w2] eqn:Eg; try discriminate.
    unfold bind at 1 in Hrun. unfold run_sbatch, external in Hrun.
    unfold bind at 1 in Hrun.
    destruct (parse_job_id (sbatch cl (now w2) path)) as [e|job_id];
      [discriminate|].
    cbn [lift] in Hrun. unfold ret at 1 in Hrun.
    unfold bind at 1 in Hrun. unfold emit_event at 1 in Hrun.
    eapply IH; [exact Hrun|].
    apply limit_jobs_done_lt in Eg. rewrite length_app. simpl. lia.
Qed.

(** Through a whole run of the driver the tracked list never holds more
    than [MAX_JOBS_RUNNING] handles after a submission; in particular
    the list [submit_subgroup_jobs] returns does not. *)
Theorem submit_subgroup_jobs_keeps_ceiling (cl : cluster) (rounds : nat)
    (index_csv : csv_file) (num_subgroups : Z) (output_dir : string)
    (w : world) (q : list string) (w' : world) :
  submit_subgroup_jobs cl rounds index_csv num_subgroups output_dir w =
    (Done q, w') ->
  Z.of_nat (length q) <= MAX_JOBS_RUNNING.
Proof.
  unfold submit_subgroup_jobs. unfold bind at 1. unfold emit_event at 1.
  unfold bind at 1. intros Hrun.
  destruct (submit_loop cl rounds num_subgroups output_dir 1
              (yielded (iter_id_ranges index_csv num_subgroups)) []
              (mkWorld (now w) (EnsureDir output_dir :: log w)))
    as [[q1|e|] w1] eqn:Eloop; try discriminate.
  apply submit_loop_keeps_ceiling in Eloop; [|unfold MAX_JOBS_RUNNING; simpl; lia].
  destruct (raised (iter_id_ranges index_csv num_subgroups));
    [discriminate|].
  injection Hrun as <- _. exact Eloop.
Qed.

Lemma submit_subgroup_jobs_keeps_ceiling_witness :
  Z.of_nat (length ["1002"%string]) <= MAX_JOBS_RUNNING.
Proof.
  apply (submit_subgroup_jobs_keeps_ceiling idle_cluster 1 resume_file
           NUM_SUBGROUPS SUBGROUP_RESULTS_DIR start ["1002"%string]
           (snd (submit_subgroup_jobs idle_cluster 1 resume_file
                   NUM_SUBGROUPS SUBGROUP_RESULTS_DIR start))).
  vm_compute. reflexivity.
Defined.

(* ===================================================================== *)
(** * Further properties of the gate *)
(* ===================================================================== *)

Lemma kept_refl {A : Type} (l : list A) : kept l l.
Proof. induction l; constructor; assumption. Qed.

Lemma kept_trans {A : Type} (l1 l2 l3 : list A) :
  kept l1 l2 -> kept l2 l3 -> kept l1 l3.
Proof.
  intros H12 H23. revert l1 H12.
  induction H23 as [|x l2 l3 H IH|x l2 l3 H IH]; intros l1 H12.
  - exact H12.
  - constructor. auto.
  - inversion H12; subst; [apply kept_drop|apply kept_keep]; auto.
Qed.

Lemma kept_app {A : Type} (l1 l2 l : list A) :
  kept l1 l2 -> kept (l1 ++ l) (l2 ++ l).
Proof.
  induction 1; simpl;
    [apply kept_refl|apply kept_drop; assumption|apply kept_keep; assumption].
Qed.

Lemma kept_length {A : Type} (l' l : list A) :
  kept l' l -> (length l' <= length l)%nat.
Proof. induction 1; simpl; lia. Qed.

Lemma kept_In {A : Type} (l' l : list A) (x : A) :
  kept l' l -> In x l' -> In x l.
Proof.
  induction 1; simpl; intros Hx; auto.
  destruct Hx; auto.
Qed.

Lemma pruned_kept (cl : cluster) (job_queue : list string) (w : world) :
  kept (pruned cl job_queue w) job_queue.
Proof.
  revert w. induction job_queue as [|job rest IH]; intros w; [constructor|].
  rewrite pruned_cons. cbv zeta.
  destruct (str_truthy _); [apply kept_keep|apply kept_drop]; apply IH.
Qed.

(** What a round does, whichever way it ends: the list it hands on is
    the pruned one. *)
Lemma limit_jobs_round_list (cl : cluster) (job_queue : list string)
    (max_jobs_running : Z) (w : world) :
  exists w',
    limit_jobs_round cl job_queue max_jobs_running w =
      (Done (Release (pruned cl job_queue w)), w') \/
    limit_jobs_round cl job_queue max_jobs_running w =
      (Done (Retry (pruned cl job_queue w)), w').
Proof.
  rewrite limit_jobs_round_eq. cbv zeta.
  repeat match goal with
         | |- context [if ?b then _ else _] => destruct b
         end; eexists; (left; reflexivity) || (right; reflexivity).
Qed.

Lemma limit_jobs_only_removes_core (cl : cluster) (rounds : nat)
    (job_queue : list string) (max_jobs_running : Z) (w : world)
    (q : list string) (w' : world) :
  limit_jobs cl rounds job_queue max_jobs_running w = (Done q, w') ->
  kept q job_queue.
Proof.
  revert job_queue w.
  induction rounds as [|rounds IH]; intros job_queue w Hrun; [discriminate|].
  rewrite limit_jobs_unfold in Hrun.
  destruct (limit_jobs_round_list cl job_queue max_jobs_running w)
    as (w1 & [E|E]); rewrite E in Hrun.
  - injection Hrun as <- _. apply pruned_kept.
  - eapply kept_trans; [eapply IH; exact Hrun|apply pruned_kept].
Qed.

(** The gate only ever removes handles: the list [limit_jobs] returns is
    the list it was given with some handles deleted, in the same order. *)
Theorem limit_jobs_only_removes (cl : cluster) (rounds : nat)
    (job_queue : list string) (max_jobs_running : Z) (w : world)
    (q : list string) (w' : world) :
  limit_jobs cl rounds job_queue max_jobs_running w = (Done q, w') ->
  kept q job_queue.
Proof. apply limit_jobs_only_removes_core. Qed.

Lemma limit_jobs_only_removes_witness :
  kept (@nil string) ["1000"; "1001"]%string.
Proof.
  apply (limit_jobs_only_removes idle_cluster 1 ["1000"; "1001"]%string 180
           start []
           (mkWorld 2 [Sleep 5; PrintJobsFinished 0;
                       RunSqueue "1001"%string; RunSqueue "1000"%string])).
  vm_compute. reflexivity.
Defined.

(** Conditions 2 and 3 release in the round in which they hold.  When
    condition 1 fails, the count is below [max_jobs_running - 20] and the
    database reports more than 30 free slots, [limit_jobs] returns the
    pruned list after one database query and a 5 second delay.  When
    condition 2 fails as well, the count is below [max_jobs_running] and
    the database reports more than 15 free slots at the next query, it
    returns after a 15 second delay. *)
Theorem limit_jobs_release_by_database (cl : cluster)
    (job_queue : list string) (max_jobs_running : Z) (w : world) (rounds : nat) :
  let q := pruned cl job_queue w in
  let w1 := probed cl job_queue w in
  let n := Z.of_nat (length q) in
  ~ tier1 n max_jobs_running ->
  (tier2 cl n max_jobs_running w1 ->
   limit_jobs cl (S rounds) job_queue max_jobs_running w =
     (Done q, after_tier2 n w1)) /\
  (~ tier2 cl n max_jobs_running w1 -> tier3 cl n max_jobs_running w1 ->
   limit_jobs cl (S rounds) job_queue max_jobs_running w =
     (Done q, after_tier3 n max_jobs_running w1)).
Proof.
  intros q w1 n H1.
  rewrite limit_jobs_unfold, limit_jobs_round_eq. cbv zeta.
  change (pruned cl job_queue w) with q.
  change (probed cl job_queue w) with w1.
  change (Z.of_nat (length q)) with n.
  clearbody n w1 q.
  unfold tier1, tier2, tier3, after_tier2, after_tier3, asked in *.
  destruct (Z.ltb_spec n (max_jobs_running - 150)) as [|_]; [contradiction|].
  destruct (Z.ltb_spec n (max_jobs_running - 20)) as [Hlt2|Hge2];
    destruct (Z.ltb_spec n max_jobs_running) as [Hlt3|Hge3];
    cbn [andb now log];
    repeat match goal with
           | |- context [free_slots ?s >? ?t] =>
               destruct (Z.gtb_spec (free_slots s) t)
           end;
    split; intros; try reflexivity; exfalso;
    repeat match goal with
           | H : _ /\ _ |- _ => destruct H
           | H : ~ (_ /\ _) |- _ => apply H; split
           end; lia.
Qed.

Lemma limit_jobs_release_by_database_witness :
  limit_jobs roomy_cluster 1 ["1000"; "1001"]%string 152 start =
  (Done ["1000"; "1001"]%string,
   mkWorld 3 [Sleep 5; PrintJobsFinished 2; PgQuery 30;
              RunSqueue "1001"%string; RunSqueue "1000"%string]).
Proof.
  apply (proj1 (limit_jobs_release_by_database roomy_cluster
                  ["1000"; "1001"]%string 152 start 0
                  ltac:(unfold tier1; vm_compute; discriminate))).
  unfold tier2. vm_compute. split; reflexivity.
Defined.

(* ===================================================================== *)
(** * Further properties of the driver *)
(* ===================================================================== *)

Lemma submitted_handles_quiet (t : nat) (e : event) (w : world) :
  match e with PrintSubmitted _ _ _ _ _ => False | _ => True end ->
  submitted_handles (mkWorld t (e :: log w)) = submitted_handles w.
Proof.
  intros He. unfold submitted_handles. cbn [log rev].
  rewrite flat_map_app. destruct e; try contradiction; apply app_nil_r.
Qed.

Lemma submitted_handles_print (t : nat) (idx k : Z) (lo hi job_id : string)
    (w : world) :
  submitted_handles (mkWorld t (PrintSubmitted idx k lo hi job_id :: log w)) =
  submitted_handles w ++ [job_id].
Proof.
  unfold submitted_handles. cbn [log rev]. rewrite flat_map_app. reflexivity.
Qed.

Lemma submitted_handles_probed (cl : cluster) (job_queue : list string)
    (w : world) :
  submitted_handles (probed cl job_queue w) = submitted_handles w.
Proof.
  revert w. induction job_queue as [|job rest IH]; intros w; [reflexivity|].
  rewrite probed_cons, IH. apply (submitted_handles_quiet _ (RunSqueue job) w).
  exact I.
Qed.

Lemma submitted_handles_round (cl : cluster) (job_queue : list string)
    (max_jobs_running : Z) (w : world) :
  submitted_handles (snd (limit_jobs_round cl job_queue max_jobs_running w)) =
  submitted_handles w.
Proof.
  rewrite limit_jobs_round_eq. cbv zeta.
  rewrite <- (submitted_handles_probed cl job_queue w).
  generalize (probed cl job_queue w) as w1. intros w1.
  unfold released, asked, submitted_handles.
  repeat match goal with
         | |- context [if ?b then _ else _] => destruct b
         end;
    cbn [snd log now rev]; rewrite ?flat_map_app; cbn [flat_map];
    rewrite ?app_nil_r; reflexivity.
Qed.

(** The gate reports no submission. *)
Lemma submitted_handles_limit_jobs (cl : cluster) (rounds : nat) :
  forall (job_queue : list string) (max_jobs_running : Z) (w : world),
    submitted_handles (snd (limit_jobs cl rounds job_queue max_jobs_running w)) =
    submitted_handles w.
Proof.
  induction rounds as [|rounds IH]; intros job_queue max_jobs_running w;
    [reflexivity|].
  rewrite limit_jobs_unfold.
  pose proof (submitted_handles_round cl job_queue max_jobs_running w) as Hr.
  destruct (limit_jobs_round cl job_queue max_jobs_running w)
    as [[[q|q]|e|] w1]; cbn [snd] in *; try exact Hr.
  rewrite IH. exact Hr.
Qed.

Lemma create_query_job_run (idx : Z) (id_range : string * string)
    (output_csv : string) (w : world) :
  exists text,
    create_query_job idx id_range output_csv w =
    (Done (script_path_of idx),
     mkWorld (now w)
       (WriteScript (script_path_of idx) text
          :: EnsureDir JOB_OUTPUT_DIR :: EnsureDir JOB_SCRIPT_DIR :: log w)).
Proof.
  unfold create_query_job, bind, emit_event, ret. cbv beta iota zeta.
  eexists. reflexivity.
Qed.

Lemma submit_loop_tracks (cl : cluster) (rounds : nat) (num_subgroups : Z)
    (output_dir : string) (ranges : list (string * string)) :
  forall (idx : Z) (job_queue : list string) (w : world)
         (q : list string) (w' : world) (new : list string),
    submit_loop cl rounds num_subgroups output_dir idx ranges job_queue w =
      (Done q, w') ->
    tracks job_queue new ->
    exists more,
      submitted_handles w' = submitted_handles w ++ more /\
      tracks q (new ++ more).
Proof.
  induction ranges as [|[min_id max_id] rest IH];
    intros idx job_queue w q w' new Hrun Htr.
  - injection Hrun as <- <-. exists []. rewrite !app_nil_r. auto.
  - cbn [submit_loop] in Hrun. destruct (idx <? 5556); [eauto|].
    unfold bind at 1 in Hrun.
    destruct (create_query_job_run idx (min_id, max_id)
                (path_join output_dir
                   ("subgroup_" ++ format_03d idx ++ ".csv")) w)
      as (text & E1).
    rewrite E1 in Hrun. unfold bind at 1 in Hrun.
    pose proof (submitted_handles_limit_jobs cl rounds job_queue
                  MAX_JOBS_RUNNING
                  (mkWorld (now w)
                     (WriteScript (script_path_of idx) text
                        :: EnsureDir JOB_OUTPUT_DIR
                        :: EnsureDir JOB_SCRIPT_DIR :: log w))) as Hquiet.
    destruct (limit_jobs cl rounds job_queue MAX_JOBS_RUNNING _)
      as [[q1|e|] w2] eqn:Eg; try discriminate.
    cbn [snd] in Hquiet.
    unfold bind at 1 in Hrun. unfold run_sbatch, external in Hrun.
    unfold bind at 1 in Hrun.
    destruct (parse_job_id (sbatch cl (now w2) (script_path_of idx)))
      as [e|job_id]; [discriminate|].
    cbn [lift] in Hrun. unfold ret at 1 in Hrun.
    unfold bind at 1 in Hrun. unfold emit_event at 1 in Hrun.
    cbn [now log] in Hrun.
    destruct (IH _ _ _ _ _ (new ++ [job_id]) Hrun) as (more & Hmore & Htr').
    + destruct Htr as [Hk Hl]. split.
      * apply kept_app. eapply kept_trans; [|exact Hk].
        eapply limit_jobs_only_removes_core. exact Eg.
      * intros n0 h Heq. apply app_inj_tail in Heq. destruct Heq as [_ <-].
        eauto.
    + exists (job_id :: more). split.
      * rewrite Hmore. unfold submitted_handles in *.
        cbn [log rev] in *. rewrite !flat_map_app in *.
        cbn [flat_map] in *. rewrite !app_nil_r in *.
        rewrite Hquiet, <- !app_assoc. reflexivity.
      * rewrite <- app_assoc in Htr'. exact Htr'.
Qed.

(** Every handle [submit_subgroup_jobs] returns was submitted during
    the run, the returned handles are in submission order, and the
    handle submitted last is always the last one returned. *)
Theorem submit_subgroup_jobs_returns_submitted (cl : cluster) (rounds : nat)
    (index_csv : csv_file) (num_subgroups : Z) (output_dir : string)
    (w : world) (q : list string) (w' : world) :
  submit_subgroup_jobs cl rounds index_csv num_subgroups output_dir w =
    (Done q, w') ->
  exists new,
    submitted_handles w' = submitted_handles w ++ new /\
    kept q new /\
    (forall n0 h, new = n0 ++ [h] -> exists q0, q = q0 ++ [h]).
Proof.
  unfold submit_subgroup_jobs. unfold bind at 1. unfold emit_event at 1.
  unfold bind at 1. intros Hrun.
  destruct (submit_loop cl rounds num_subgroups output_dir 1
              (yielded (iter_id_ranges index_csv num_subgroups)) []
              (mkWorld (now w) (EnsureDir output_dir :: log w)))
    as [[q1|e|] w1] eqn:Eloop; try discriminate.
  destruct (submit_loop_tracks _ _ _ _ _ _ _ _ _ _ [] Eloop)
    as (more & Hmore & Hk & Hl).
  { split; [constructor|]. intros n0 h Heq. destruct n0; discriminate. }
  destruct (raised (iter_id_ranges index_csv num_subgroups));
    [discriminate|].
  injection Hrun as <- <-. exists more.
  rewrite Hmore.
  rewrite (submitted_handles_quiet _ (EnsureDir output_dir) w) by exact I.
  auto.
Qed.

Lemma submit_subgroup_jobs_returns_submitted_witness :
  exists new,
    submitted_handles
      (snd (submit_subgroup_jobs idle_cluster 1 resume_file NUM_SUBGROUPS
              SUBGROUP_RESULTS_DIR start)) =
      submitted_handles start ++ new /\
    kept ["1002"%string] new /\
    (forall n0 h, new = n0 ++ [h] -> exists q0, ["1002"%string] = q0 ++ [h]).
Proof.
  apply (submit_subgroup_jobs_returns_submitted idle_cluster 1 resume_file
           NUM_SUBGROUPS SUBGROUP_RESULTS_DIR start ["1002"%string]
           (snd (submit_subgroup_jobs idle_cluster 1 resume_file
                   NUM_SUBGROUPS SUBGROUP_RESULTS_DIR start))).
  vm_compute. reflexivity.
Defined.

(** The generator never yields more pairs than the file has data rows,
    whatever the rows hold. *)
Lemma chunk_loop_yields_le (chunk_size : Z) (rows : list row) :
  forall (first_id : option string) (count : Z) (cur : option row),
    (length (yielded (chunk_loop chunk_size first_id count cur rows)) <=
     length rows + 1)%nat /\
    (first_id = None ->
     length (yielded (chunk_loop chunk_size first_id count cur rows)) <=
     length rows)%nat.
Proof.
  induction rows as [|r rest IH]; intros first_id count cur.
  - cbn [chunk_loop length]. split.
    + destruct first_id as [fid|]; [|simpl; lia].
      destruct (str_truthy fid); [|simpl; lia].
      destruct cur as [r|]; [|simpl; lia].
      destruct (item0 r); simpl; lia.
    + intros ->. simpl. lia.
  - cbn [chunk_loop length]. cbv zeta.
    match goal with
    | |- (length (yielded ?t) <= _)%nat /\ _ =>
        assert (Hany : (length (yielded t) <= S (length rest))%nat)
    end.
    { destruct (match first_id with
                | Some fid => if str_truthy fid then inr fid else item0 r
                | None => item0 r
                end) as [e|fid]; [simpl; lia|].
      destruct (count + 1 =? chunk_size).
      - destruct (item0 r); [simpl; lia|].
        cbn [yield yielded length].
        pose proof (proj2 (IH None 0 (Some r)) eq_refl). lia.
      - pose proof (proj1 (IH (Some fid) (count + 1) (Some r))). lia. }
    split; [lia|intros _; exact Hany].
Qed.

Lemma iter_id_ranges_yields_le (f : csv_file) (num_subgroups : Z) :
  (length (yielded (iter_id_ranges f num_subgroups)) <= length f - 1)%nat.
Proof.
  unfold iter_id_ranges. destruct (num_subgroups =? 0); [simpl; lia|].
  destruct f as [|header rows]; [simpl; lia|].
  pose proof (proj2 (chunk_loop_yields_le
                       ((count_lines (header :: rows) + num_subgroups - 1)
                        / num_subgroups) rows None 0 None) eq_refl).
  simpl length. lia.
Qed.

(** Partitions below index 5556 are passed over without any effect. *)
Lemma submit_loop_skips (cl : cluster) (rounds : nat) (num_subgroups : Z)
    (output_dir : string) (ranges : list (string * string)) :
  forall (idx : Z) (job_queue : list string) (w : world),
    idx + Z.of_nat (length ranges) <= 5556 ->
    submit_loop cl rounds num_subgroups output_dir idx ranges job_queue w =
    (Done job_queue, w).
Proof.
  induction ranges as [|[min_id max_id] rest IH]; intros idx job_queue w Hidx;
    [reflexivity|].
  cbn [submit_loop]. cbn [length] in Hidx.
  replace (idx <? 5556) with true by (symmetry; apply Z.ltb_lt; lia).
  apply IH. lia.
Qed.

(** The resume filter [idx < 5556] is hard-coded: on an index file with
    fewer than 5556 data rows, whatever the target count and whatever the
    cluster answers, [submit_subgroup_jobs] submits no job, writes no
    script and probes nothing; it only ensures the output directory and
    returns the empty list (or ends with the exception that ended the
    generator). *)
Theorem submit_subgroup_jobs_small_file_submits_nothing (cl : cluster)
    (rounds : nat) (index_csv : csv_file) (num_subgroups : Z)
    (output_dir : string) (w : world) :
  Z.of_nat (length index_csv) <= 5556 ->
  submit_subgroup_jobs cl rounds index_csv num_subgroups output_dir w =
  (match raised (iter_id_ranges index_csv num_subgroups) with
   | Some e => Raised e
   | None => Done []
   end,
   mkWorld (now w) (EnsureDir output_dir :: log w)).
Proof.
  intros Hlen. unfold submit_subgroup_jobs.
  unfold bind at 1. unfold emit_event at 1. unfold bind at 1.
  rewrite submit_loop_skips.
  - destruct (raised (iter_id_ranges index_csv num_subgroups)); reflexivity.
  - pose proof (iter_id_ranges_yields_le index_csv num_subgroups). lia.
Qed.

Lemma submit_subgroup_jobs_small_file_submits_nothing_witness :
  submit_subgroup_jobs busy_cluster 1 (file_of (sample_ids 95)) NUM_SUBGROUPS
    SUBGROUP_RESULTS_DIR start =
  (match raised (iter_id_ranges (file_of (sample_ids 95)) NUM_SUBGROUPS) with
   | Some e => Raised e
   | None => Done []
   end,
   mkWorld (now start) (EnsureDir SUBGROUP_RESULTS_DIR :: log start)).
Proof.
  apply (submit_subgroup_jobs_small_file_submits_nothing busy_cluster 1
           (file_of (sample_ids 95)) NUM_SUBGROUPS SUBGROUP_RESULTS_DIR start).
  vm_compute. discriminate.
Defined.

(* ===================================================================== *)
(** * Further properties of the partitioner *)
(* ===================================================================== *)










(** ** A target count that is not positive *)





(** ** The ranges the jobs query *)


Section Ranges.

Variable le : string -> string -> Prop.
Hypothesis le_refl : forall a, le a a.
Hypothesis le_trans : forall a b c, le a b -> le b c -> le a c.
Hypothesis le_antisym : forall a b, le a b -> le b a -> a = b.

Let lt (a b : string) : Prop := le a b /\ a <> b.




End Ranges.


(** ** The scripts the driver writes and submits *)

Lemma probed_log (cl : cluster) (job_queue : list string) (w : world) :
  exists added,
    log (probed cl job_queue w) = added ++ log w /\ Forall gate_event added.
Proof.
  revert w. induction job_queue as [|job rest IH]; intros w.
  - exists []. split; [reflexivity|constructor].
  - rewrite probed_cons.
    destruct (IH (mkWorld (S (now w)) (RunSqueue job :: log w)))
      as (added & -> & Hall).
    exists (added ++ [RunSqueue job]). cbn [log].
    split; [rewrite <- app_assoc; reflexivity|].
    apply Forall_app. split; [exact Hall|]. repeat constructor.
Qed.

(** The gate only probes, queries, sleeps and prints its progress line. *)
Lemma limit_jobs_log (cl : cluster) (rounds : nat) :
  forall (job_queue : list string) (max_jobs_running : Z) (w : world),
  exists added,
    log (snd (limit_jobs cl rounds job_queue max_jobs_running w)) =
      added ++ log w /\
    Forall gate_event added.
Proof.
  induction rounds as [|rounds IH]; intros job_queue max_jobs_running w.
  - exists []. split; [reflexivity|constructor].
  - cbn [limit_jobs]. unfold bind at 1. rewrite limit_jobs_round_eq.
    cbv zeta.
    destruct (probed_log cl job_queue w) as (added & Hlog & Hall).
    set (w1 := probed cl job_queue w) in *.
    set (q := pruned cl job_queue w).
    assert (Hstep : forall (extra : list event) (t : nat),
               Forall gate_event extra ->
               exists added',
                 log (snd (limit_jobs cl rounds q max_jobs_running
                             (mkWorld t (extra ++ log w1)))) =
                   added' ++ log w /\
                 Forall gate_event added').
    { intros extra t Hextra.
      destruct (IH q max_jobs_running (mkWorld t (extra ++ log w1)))
        as (a & -> & Ha).
      exists (a ++ extra ++ added). cbn [log]. rewrite Hlog.
      split; [rewrite <- !app_assoc; reflexivity|].
      repeat (apply Forall_app; split); assumption. }
    assert (Hdone : forall extra : list event,
               Forall gate_event extra ->
               exists added',
                 extra ++ log w1 = added' ++ log w /\
                 Forall gate_event added').
    { intros extra Hextra. exists (extra ++ added).
      rewrite Hlog. split; [rewrite <- app_assoc; reflexivity|].
      apply Forall_app; split; assumption. }
    destruct (_ <? max_jobs_running - 150).
    { unfold ret. cbn [snd]. unfold released. cbn [log now].
      apply (Hdone [Sleep 5; PrintJobsFinished _]). repeat constructor. }
    destruct (_ <? max_jobs_running - 20); cbn [andb].
    + destruct (free_slots _ >? 30).
      { unfold ret. cbn [snd]. unfold released, asked. cbn [log now].
        apply (Hdone [Sleep 5; PrintJobsFinished _; PgQuery 30]).
        repeat constructor. }
      destruct (_ <? max_jobs_running); cbn [andb].
      * destruct (free_slots _ >? 15).
        { unfold ret. cbn [snd]. unfold released, asked. cbn [log now].
          apply (Hdone [Sleep 15; PrintJobsFinished _; PgQuery 15; PgQuery 30]).
          repeat constructor. }
        unfold asked. cbn [log now].
        apply (Hstep [Sleep 30; PgQuery 15; PgQuery 30]). repeat constructor.
      * unfold asked. cbn [log now].
        apply (Hstep [Sleep 30; PgQuery 30]). repeat constructor.
    + destruct (_ <? max_jobs_running); cbn [andb].
      * destruct (free_slots _ >? 15).
        { unfold ret. cbn [snd]. unfold released, asked. cbn [log now].
          apply (Hdone [Sleep 15; PrintJobsFinished _; PgQuery 15]).
          repeat constructor. }
        unfold asked. cbn [log now].
        apply (Hstep [Sleep 30; PgQuery 15]). repeat constructor.
      * apply (Hstep [Sleep 30]). repeat constructor.
Qed.

Lemma scripts_after_gate (added : list event) (w w2 : world) :
  log w2 = added ++ log w ->
  Forall gate_event added ->
  written_scripts w2 = written_scripts w /\
  submitted_scripts w2 = submitted_scripts w.
Proof.
  intros Hlog Hall. unfold written_scripts, submitted_scripts.
  rewrite Hlog, rev_app_distr, !flat_map_app.
  assert (Hnone :
    flat_map (fun e => match e with
                       | WriteScript path text => [(path, text)]
                       | _ => []
                       end) (rev added) = [] /\
    flat_map (fun e => match e with RunSbatch path => [path] | _ => [] end)
             (rev added) = []).
  { apply Forall_rev in Hall. induction Hall as [|e l He _ [IH1 IH2]];
      [split; reflexivity|].
    cbn [flat_map]. rewrite IH1, IH2.
    destruct e; try contradiction; split; reflexivity. }
  destruct Hnone as [-> ->]. rewrite !app_nil_r. split; reflexivity.
Qed.

Lemma submit_loop_scripts (cl : cluster) (rounds : nat) (num_subgroups : Z)
    (output_dir : string) (ranges : list (string * string)) :
  forall (idx : Z) (job_queue : list string) (w : world)
         (o : outcome (list string)) (w' : world),
    submit_loop cl rounds num_subgroups output_dir idx ranges job_queue w =
      (o, w') ->
    let jobs := map (script_of output_dir) (to_submit idx ranges) in
    exists m m' : nat,
      written_scripts w' = written_scripts w ++ firstn m jobs /\
      submitted_scripts w' = submitted_scripts w ++ map fst (firstn m' jobs) /\
      (m' <= m <= S m')%nat /\
      forall q, o = Done q -> firstn m' jobs = jobs.
Proof.
  induction ranges as [|[min_id max_id] rest IH];
    intros idx job_queue w o w' Hrun; cbv zeta.
  - injection Hrun as <- <-. exists O, O. cbn. rewrite !app_nil_r.
    repeat split; auto.
  - cbn [submit_loop] in Hrun. unfold to_submit.
    cbn [enumerate filter fst].
    fold (to_submit (idx + 1) rest).
    destruct (idx <? 5556); cbn [negb]; [eapply IH; exact Hrun|].
    cbn [map].
    set (jobs := map (script_of output_dir) (to_submit (idx + 1) rest)) in *.
    unfold bind at 1 in Hrun.
    unfold create_query_job, bind at 1 2 3, emit_event at 1 2 3 in Hrun.
    unfold ret at 1 in Hrun. cbv beta iota zeta in Hrun.
    cbn [now log] in Hrun.
    unfold bind at 1 in Hrun.
    match type of Hrun with
    | context [limit_jobs cl rounds job_queue _ ?w1] =>
        destruct (limit_jobs_log cl rounds job_queue MAX_JOBS_RUNNING w1)
          as (added & Hlog & Hall);
        destruct (limit_jobs cl rounds job_queue MAX_JOBS_RUNNING w1)
          as [[q1|e|] w2];
        cbn [snd] in Hlog;
        destruct (scripts_after_gate added w1 w2 Hlog Hall) as [Hw Hs]
    end;
      unfold written_scripts in Hw at 2; unfold submitted_scripts in Hs at 2;
      cbn [log rev] in Hw, Hs; rewrite !flat_map_app in Hw, Hs;
      cbn [flat_map] in Hw, Hs; rewrite !app_nil_r in Hs;
      rewrite <- !app_assoc in Hw; cbn [app] in Hw;
      fold (written_scripts w) in Hw; fold (submitted_scripts w) in Hs.
    2,3: injection Hrun as <- <-; exists 1%nat, O; cbn [firstn map];
         rewrite app_nil_r; repeat split; auto; discriminate.
    unfold bind at 1, run_sbatch, external in Hrun. cbv beta iota in Hrun.
    unfold bind at 1 in Hrun.
    destruct (parse_job_id _) as [e|job_id]; unfold lift at 1 in Hrun.
    + unfold raise in Hrun. injection Hrun as <- <-.
      exists 1%nat, 1%nat. cbn [firstn map fst script_of].
      split; [|split; [|split; [lia|discriminate]]].
      * unfold written_scripts at 1. cbn [log rev].
        rewrite flat_map_app. cbn [flat_map]. rewrite app_nil_r.
        fold (written_scripts w2). exact Hw.
      * unfold submitted_scripts at 1. cbn [log rev].
        rewrite flat_map_app. cbn [flat_map].
        fold (submitted_scripts w2). rewrite Hs. reflexivity.
    + unfold ret at 1 in Hrun. unfold bind at 1, emit_event at 1 in Hrun.
      cbn [now log] in Hrun.
      apply IH in Hrun. cbv zeta in Hrun. fold jobs in Hrun.
      destruct Hrun as (m & m' & Hw' & Hs' & Hm & Hd).
      exists (S m), (S m'). cbn [firstn map fst script_of].
      split; [|split; [|split; [lia|]]].
      * rewrite Hw'. unfold written_scripts at 1. cbn [log rev].
        rewrite !flat_map_app. cbn [flat_map]. rewrite !app_nil_r.
        fold (written_scripts w2). rewrite Hw, <- app_assoc. reflexivity.
      * rewrite Hs'. unfold submitted_scripts at 1. cbn [log rev].
        rewrite !flat_map_app. cbn [flat_map]. rewrite app_nil_r.
        fold (submitted_scripts w2). rewrite Hs, <- !app_assoc. reflexivity.
      * intros q Hq. f_equal. eapply Hd. exact Hq.
Qed.

(** What the driver writes and submits.  The jobs of a run are fixed by
    the index file alone: one script for each pair the partitioner
    yields from the 5556th on, carrying the index of the pair in its
    name, the two identifiers of the pair and the output file of that
    index.  In any run, however it ends, the scripts written are the
    first [m] of these jobs in order, the scripts handed to [sbatch] are
    the first [m'] of them, every script is written before it is
    submitted and at most one is written and not submitted; when the
    driver returns, every job was written and submitted exactly once. *)
Theorem submit_subgroup_jobs_scripts (cl : cluster) (rounds : nat)
    (index_csv : csv_file) (num_subgroups : Z) (output_dir : string)
    (w : world) (o : outcome (list string)) (w' : world) :
  submit_subgroup_jobs cl rounds index_csv num_subgroups output_dir w =
    (o, w') ->
  let jobs :=
    map (script_of output_dir)
        (to_submit 1 (yielded (iter_id_ranges index_csv num_subgroups))) in
  exists m m' : nat,
    written_scripts w' = written_scripts w ++ firstn m jobs /\
    submitted_scripts w' = submitted_scripts w ++ map fst (firstn m' jobs) /\
    (m' <= m <= S m')%nat /\
    forall q, o = Done q -> firstn m' jobs = jobs.
Proof.
  unfold submit_subgroup_jobs, bind, emit_event. cbv beta iota zeta.
  intros Hrun.
  destruct (submit_loop cl rounds num_subgroups output_dir 1
              (yielded (iter_id_ranges index_csv num_subgroups)) []
              (mkWorld (now w) (EnsureDir output_dir :: log w)))
    as [o1 w1] eqn:Eloop.
  apply submit_loop_scripts in Eloop. cbv zeta in Eloop.
  destruct Eloop as (m & m' & Hw & Hs & Hm & Hd).
  assert (Hstart :
    written_scripts (mkWorld (now w) (EnsureDir output_dir :: log w)) =
      written_scripts w /\
    submitted_scripts (mkWorld (now w) (EnsureDir output_dir :: log w)) =
      submitted_scripts w).
  { unfold written_scripts, submitted_scripts. cbn [log rev].
    rewrite !flat_map_app. cbn [flat_map]. rewrite !app_nil_r.
    split; reflexivity. }
  destruct Hstart as [Hw0 Hs0]. rewrite Hw0 in Hw. rewrite Hs0 in Hs.
  exists m, m'.
  destruct o1 as [q1|e|];
    [destruct (raised (iter_id_ranges index_csv num_subgroups))| |];
    injection Hrun as <- <-;
    (split; [exact Hw|split; [exact Hs|split; [exact Hm|]]]);
    try discriminate.
  intros q _. eapply Hd. reflexivity.
Qed.

Lemma submit_subgroup_jobs_scripts_witness :
  exists m m' : nat,
    written_scripts
      (snd (submit_subgroup_jobs idle_cluster 1 resume_file NUM_SUBGROUPS
              SUBGROUP_RESULTS_DIR start)) =
      written_scripts start ++
      firstn m (map (script_of SUBGROUP_RESULTS_DIR)
                  (to_submit 1 (yielded (iter_id_ranges resume_file
                                           NUM_SUBGROUPS)))) /\
    submitted_scripts
      (snd (submit_subgroup_jobs idle_cluster 1 resume_file NUM_SUBGROUPS
              SUBGROUP_RESULTS_DIR start)) =
      submitted_scripts start ++
      map fst (firstn m' (map (script_of SUBGROUP_RESULTS_DIR)
                            (to_submit 1 (yielded (iter_id_ranges resume_file
                                                     NUM_SUBGROUPS))))) /\
    (m' <= m <= S m')%nat /\
    forall q, Done ["1002"%string] = Done q ->
      firstn m' (map (script_of SUBGROUP_RESULTS_DIR)
                   (to_submit 1 (yielded (iter_id_ranges resume_file
                                            NUM_SUBGROUPS)))) =
      map (script_of SUBGROUP_RESULTS_DIR)
        (to_submit 1 (yielded (iter_id_ranges resume_file NUM_SUBGROUPS))).
Proof.
  apply (submit_subgroup_jobs_scripts idle_cluster 1 resume_file
           NUM_SUBGROUPS SUBGROUP_RESULTS_DIR start (Done ["1002"%string])
           (snd (submit_subgroup_jobs idle_cluster 1 resume_file
                   NUM_SUBGROUPS SUBGROUP_RESULTS_DIR start))).
  vm_compute. reflexivity.
Defined.

(** ** The names of the files of a partition *)

Lemma read_nat_zeros (k : nat) (s : string) :
  read_nat (zeros k ++ s) = read_nat s.
Proof.
  induction k as [|k IH]; [reflexivity|].
  rewrite <- IH. unfold read_nat. cbn [zeros append NilEmpty.uint_of_string].
  destruct (NilEmpty.uint_of_string (zeros k ++ s)) as [d|]; reflexivity.
Qed.

Lemma read_nat_format_03d (n : Z) :
  0 <= n -> read_nat (format_03d n) = Some (Z.to_nat n).
Proof.
  intros Hn. unfold format_03d. cbv zeta.
  replace (n <? 0) with false by (symmetry; apply Z.ltb_ge; exact Hn).
  rewrite read_nat_zeros. unfold read_nat, str_of_nat.
  rewrite NilEmpty.usu. cbn [option_map].
  rewrite DecimalNat.Unsigned.of_to, Zabs2Nat.abs_nat_nonneg by exact Hn.
  reflexivity.
Qed.

Lemma format_03d_inj (i j : Z) :
  0 <= i -> 0 <= j -> format_03d i = format_03d j -> i = j.
Proof.
  intros Hi Hj E. apply (f_equal read_nat) in E.
  rewrite !read_nat_format_03d in E by assumption.
  injection E as E. lia.
Qed.

Lemma length_append (a b : string) :
  String.length (a ++ b) = (String.length a + String.length b)%nat.
Proof. induction a as [|c a IH]; cbn; [reflexivity|rewrite IH; reflexivity]. Qed.

Lemma append_cancel_r (t : string) :
  forall a b : string, (a ++ t = b ++ t)%string -> a = b.
Proof.
  induction a as [|c a IH]; intros [|c' b] E.
  - reflexivity.
  - apply (f_equal String.length) in E. cbn in E.
    rewrite length_append in E. lia.
  - apply (f_equal String.length) in E. cbn in E.
    rewrite length_append in E. lia.
  - cbn in E. injection E as -> E. f_equal. apply IH. exact E.
Qed.

Lemma append_cancel_l (t : string) :
  forall a b : string, (t ++ a = t ++ b)%string -> a = b.
Proof.
  induction t as [|c t IH]; intros a b E; [exact E|].
  cbn in E. injection E as E. apply IH. exact E.
Qed.

Lemma path_join_relative (dir : string) :
  exists sep : string,
    forall (c : ascii) (b : string),
      c <> "/"%char -> path_join dir (String c b) = (dir ++ sep ++ String c b)%string.
Proof.
  unfold path_join.
  destruct (rev (list_ascii_of_string dir)) as [|x l] eqn:E.
  - exists EmptyString. intros c b Hc. cbn [String.prefix].
    destruct (ascii_dec "/" c) as [<-|_]; [congruence|].
    assert (dir = EmptyString) as ->.
    { destruct dir as [|d dir]; [reflexivity|].
      cbn [list_ascii_of_string rev] in E.
      destruct (rev (list_ascii_of_string dir)); discriminate. }
    reflexivity.
  - destruct (Ascii.eqb x "/").
    + exists EmptyString. intros c b Hc. cbn [String.prefix].
      destruct (ascii_dec "/" c) as [<-|_]; [congruence|]. reflexivity.
    + exists "/"%string. intros c b Hc. cbn [String.prefix].
      destruct (ascii_dec "/" c) as [<-|_]; [congruence|]. reflexivity.
Qed.

(** Partitions with different indexes never share a file.  For indexes
    from 0 on, [create_query_job] returns a different script path for
    each index, and the driver's output name
    [os.path.join(output_dir, f"subgroup_{idx:03d}.csv")] is different
    for each index too, whatever the output directory. *)
Theorem partition_files_distinct (i j : Z) (output_dir : string)
    (ri rj : string * string) (ci cj : string) (wi wj : world) :
  0 <= i -> 0 <= j ->
  (fst (create_query_job i ri ci wi) = fst (create_query_job j rj cj wj) ->
   i = j) /\
  (path_join output_dir (csv_name i) = path_join output_dir (csv_name j) ->
   i = j).
Proof.
  intros Hi Hj. split.
  - destruct (create_query_job_run i ri ci wi) as (ti & ->).
    destruct (create_query_job_run j rj cj wj) as (tj & ->).
    cbn [fst]. intros [= E].
    apply append_cancel_r in E. apply format_03d_inj; assumption.
  - unfold csv_name. intros E.
    destruct (path_join_relative output_dir) as (sep & Hsep).
    cbn [append] in E. rewrite !Hsep in E by discriminate.
    apply append_cancel_l, append_cancel_l in E.
    injection E as E.
    apply append_cancel_r in E. apply format_03d_inj; assumption.
Qed.

Lemma partition_files_distinct_witness :
  (fst (create_query_job 7 ("W1", "W2")%string "a.csv" start) =
   fst (create_query_job 12 ("W3", "W4")%string "b.csv" start) -> 7 = 12) /\
  (path_join "out" (csv_name 7) = path_join "out" (csv_name 12) -> 7 = 12).
Proof.
  apply (partition_files_distinct 7 12 "out" ("W1", "W2")%string
           ("W3", "W4")%string "a.csv" "b.csv" start start); lia.
Defined.

(* ===================================================================== *)
(** * The in-memory variant *)
(* ===================================================================== *)

(** The slices of [chunk_list] are the chunks of the list. *)
Lemma chunk_list_chunks {A : Type} (lst : list A) (n : Z) :
  1 <= n -> InMemory.chunk_list lst n = inr (chunks (Z.to_nat n) lst).
Proof.
  intros Hn. unfold InMemory.chunk_list.
  replace (n =? 0) with false by (symmetry; apply Z.eqb_neq; lia).
  replace (n <? 0) with false by (symmetry; apply Z.ltb_ge; lia).
  f_equal. apply nth_error_ext. intros j.
  assert (Hc : (1 <= Z.to_nat n)%nat) by lia.
  unfold InMemory.range_from_0. rewrite !nth_error_map, nth_error_seq.
  destruct (Nat.ltb_spec j (ceil_div (length lst) (Z.to_nat n))) as [Hj|Hj].
  - cbn [option_map]. simpl Nat.add.
    symmetry. apply nth_error_chunks; [exact Hc|].
    destruct (Nat.le_gt_cases (length lst) (j * Z.to_nat n)) as [Hle|];
      [|assumption].
    exfalso.
    assert (Hnone : nth_error (chunks (Z.to_nat n) lst) j <> None)
      by (apply nth_error_Some; rewrite length_chunks by exact Hc; exact Hj).
    destruct (nth_error (chunks (Z.to_nat n) lst) j) as [ch|] eqn:E;
      [|congruence].
    apply nth_error_chunks_inv in E; [lia|exact Hc].
  - cbn [option_map]. symmetry. apply nth_error_None.
    rewrite length_chunks by exact Hc. exact Hj.
Qed.

(** [chunk_list(lst, n)] with [n >= 1] cuts [lst] into consecutive
    slices: their concatenation is [lst], every slice but the last has
    exactly [n] elements, the last has between 1 and [n], and there are
    [ceil(len(lst) / n)] of them. *)
Theorem chunk_list_partitions {A : Type} (lst : list A) (n : Z) :
  1 <= n ->
  exists cs,
    InMemory.chunk_list lst n = inr cs /\
    concat cs = lst /\
    length cs = ceil_div (length lst) (Z.to_nat n) /\
    forall init lastc, cs = init ++ [lastc] ->
      Forall (fun ch => length ch = Z.to_nat n) init /\
      (1 <= length lastc <= Z.to_nat n)%nat.
Proof.
  intros Hn. exists (chunks (Z.to_nat n) lst).
  assert (Hc : (1 <= Z.to_nat n)%nat) by lia.
  split; [apply chunk_list_chunks; exact Hn|].
  split; [apply concat_chunks; exact Hc|].
  split; [apply length_chunks; exact Hc|].
  intros init lastc Heq. split; [eapply chunks_init_full; eauto|].
  pose proof (chunks_nonempty (Z.to_nat n) lst) as Hne.
  pose proof (chunks_length_le (Z.to_nat n) lst) as Hle.
  rewrite Heq in Hne, Hle.
  apply Forall_app in Hne, Hle. destruct Hne as [_ Hne], Hle as [_ Hle].
  inversion Hne; inversion Hle; subst.
  destruct lastc; [congruence|]. simpl in *. lia.
Qed.

Lemma chunk_list_partitions_witness :
  exists cs,
    InMemory.chunk_list (sample_ids 5) 2 = inr cs /\
    concat cs = sample_ids 5 /\
    length cs = ceil_div (length (sample_ids 5)) (Z.to_nat 2) /\
    forall init lastc, cs = init ++ [lastc] ->
      Forall (fun ch => length ch = Z.to_nat 2) init /\
      (1 <= length lastc <= Z.to_nat 2)%nat.
Proof.
  apply (chunk_list_partitions (sample_ids 5) 2). lia.
Defined.

(** On an empty list of identifiers the in-memory partitioning does not
    return an empty list of chunks: the chunk size is 0 for every
    positive target count, and [range] refuses a zero step, so
    [submit_subgroup_jobs] ends with [ValueError] before any job is
    prepared. *)
Theorem in_memory_empty_ids_value_error (sch : InMemory.scheduler)
    (passes : nat) (num_subgroups : Z) (output_dir : string) (w : world) :
  1 <= num_subgroups ->
  InMemory.submit_subgroup_jobs sch passes [] num_subgroups output_dir w =
  (InMemory.Threw InMemory.ValueError,
   mkWorld (now w) (EnsureDir output_dir :: log w)).
Proof.
  intros Hk. unfold InMemory.submit_subgroup_jobs, InMemory.id_chunks.
  cbn [length Z.of_nat].
  replace (num_subgroups =? 0) with false by (symmetry; apply Z.eqb_neq; lia).
  replace ((0 + num_subgroups - 1) / num_subgroups) with 0
    by (symmetry; apply Z.div_small; lia).
  reflexivity.
Qed.

Lemma in_memory_empty_ids_value_error_witness :
  InMemory.submit_subgroup_jobs InMemory.stuck_scheduler 1 []
    InMemory.NUM_SUBGROUPS "data/subgroup_results" start =
  (InMemory.Threw InMemory.ValueError,
   mkWorld (now start) (EnsureDir "data/subgroup_results" :: log start)).
Proof.
  apply (in_memory_empty_ids_value_error InMemory.stuck_scheduler 1
           InMemory.NUM_SUBGROUPS "data/subgroup_results" start).
  unfold InMemory.NUM_SUBGROUPS. lia.
Defined.


Lemma chunk_ends (ch : list string) :
  ch <> [] ->
  item0 ch = inr (fst (bounds ch)) /\ last_item ch = inr (snd (bounds ch)).
Proof.
  intros Hne. unfold bounds. cbn [fst snd]. split.
  - destruct ch; [congruence|reflexivity].
  - destruct (exists_last Hne) as (q & x & ->).
    unfold last_item. rewrite rev_app_distr, last_last. reflexivity.
Qed.



(** ** The gate of [cluster_query.py] *)

Lemma still_queued_run (sch : InMemory.scheduler) (job_queue : list string)
    (w : world) :
  exists q,
    InMemory.still_queued sch job_queue w =
      (Done q, mkWorld (now w + length job_queue)
                 (rev (map RunSqueue job_queue) ++ log w)) /\
    kept q job_queue.
Proof.
  revert w. induction job_queue as [|job rest IH]; intros w.
  - exists []. split; [|constructor].
    cbn. rewrite Nat.add_0_r. destruct w; reflexivity.
  - cbn [InMemory.still_queued]. unfold bind, external. cbv beta iota.
    destruct (IH (mkWorld (S (now w)) (RunSqueue job :: log w)))
      as (q & E & Hk).
    rewrite E. unfold ret. cbn [now log length map rev].
    eexists. split.
    + f_equal. f_equal; [lia|]. rewrite <- app_assoc. reflexivity.
    + destruct (_ =? 0); [apply kept_keep|apply kept_drop]; exact Hk.
Qed.

(** Below the ceiling the gate of [cluster_query.py] returns at once:
    no [squeue], no sleep, the list untouched. *)
Lemma in_memory_limit_jobs_idle (sch : InMemory.scheduler)
    (passes : nat) (job_queue : list string) (max_jobs_running : Z)
    (w : world) :
  Z.of_nat (length job_queue) < max_jobs_running ->
  InMemory.limit_jobs sch passes job_queue max_jobs_running w =
  (Done job_queue, w).
Proof.
  intros Hlt. destruct passes; cbn [InMemory.limit_jobs];
    (replace (_ <? max_jobs_running) with true
       by (symmetry; apply Z.ltb_lt; exact Hlt)); reflexivity.
Qed.

(** Whenever the gate of [cluster_query.py] returns, the list holds
    fewer than [max_jobs_running] handles, and it is the list it was
    given with some handles removed: none added, none reordered. *)
Theorem in_memory_limit_jobs_returns_below_ceiling (sch : InMemory.scheduler)
    (passes : nat) (job_queue : list string) (max_jobs_running : Z)
    (w : world) (q : list string) (w' : world) :
  InMemory.limit_jobs sch passes job_queue max_jobs_running w = (Done q, w') ->
  Z.of_nat (length q) < max_jobs_running /\ kept q job_queue.
Proof.
  revert job_queue w.
  induction passes as [|passes IH]; intros job_queue w Hrun;
    cbn [InMemory.limit_jobs] in Hrun;
    destruct (Z.ltb_spec (Z.of_nat (length job_queue)) max_jobs_running)
      as [Hlt|Hge];
    try (injection Hrun as <- _; split; [exact Hlt|apply kept_refl]);
    try discriminate.
  unfold bind at 1 in Hrun.
  destruct (still_queued_run sch job_queue w) as (q1 & E & Hk).
  rewrite E in Hrun.
  destruct (Z.ltb_spec (Z.of_nat (length q1)) max_jobs_running) as [Hlt1|Hge1].
  - injection Hrun as <- _. auto.
  - unfold bind at 1, sleep, emit_event in Hrun.
    apply IH in Hrun. destruct Hrun as [Hlt Hk']. split; [exact Hlt|].
    eapply kept_trans; eauto.
Qed.

Lemma in_memory_limit_jobs_returns_below_ceiling_witness :
  Z.of_nat (length ["1001"]%string) < 2 /\
  kept ["1001"]%string ["1000"; "1001"]%string.
Proof.
  apply (in_memory_limit_jobs_returns_below_ceiling
           InMemory.draining_scheduler 1 ["1000"; "1001"]%string 2 start
           ["1001"]%string
           (mkWorld 2 [RunSqueue "1001"; RunSqueue "1000"])).
  vm_compute. reflexivity.
Defined.

Lemma probes_squeue (job_queue : list string) (l : list event) :
  length (filter (fun e => match e with RunSqueue _ => true | _ => false end)
                 (rev (map RunSqueue job_queue) ++ l)) =
  (length job_queue +
   length (filter (fun e => match e with RunSqueue _ => true | _ => false end) l))%nat.
Proof.
  rewrite filter_app, length_app. f_equal.
  induction job_queue as [|job rest IH]; [reflexivity|].
  cbn [map rev length]. rewrite filter_app, length_app, IH. cbn. lia.
Qed.

Lemma still_queued_all (sch : InMemory.scheduler) (job_queue : list string) :
  (forall t job, InMemory.squeue_returncode sch t job = 0) ->
  forall w,
    InMemory.still_queued sch job_queue w =
    (Done job_queue, mkWorld (now w + length job_queue)
                       (rev (map RunSqueue job_queue) ++ log w)).
Proof.
  intros Hall. induction job_queue as [|job rest IH]; intros w.
  - cbn. rewrite Nat.add_0_r. destruct w; reflexivity.
  - cbn [InMemory.still_queued]. unfold bind, external. cbv beta iota.
    rewrite IH. unfold ret. cbn [now log length map rev].
    rewrite Hall. cbn [Z.eqb]. f_equal. f_equal; [lia|].
    rewrite <- app_assoc. reflexivity.
Qed.

(** While every tracked job stays queued and the list is at the ceiling,
    the gate of [cluster_query.py] never returns: each pass probes every
    handle, sleeps 10 seconds and starts over, so after any number of
    passes it is still polling, having probed [passes * len(job_queue)]
    times. *)
Theorem in_memory_limit_jobs_blocks (sch : InMemory.scheduler)
    (passes : nat) (job_queue : list string) (max_jobs_running : Z)
    (w : world) :
  (forall t job, InMemory.squeue_returncode sch t job = 0) ->
  max_jobs_running <= Z.of_nat (length job_queue) ->
  exists w',
    InMemory.limit_jobs sch passes job_queue max_jobs_running w =
      (Polling, w') /\
    InMemory.probes w' = (InMemory.probes w + passes * length job_queue)%nat.
Proof.
  intros Hall Hge. revert w.
  induction passes as [|passes IH]; intros w; cbn [InMemory.limit_jobs];
    (replace (_ <? max_jobs_running) with false
       by (symmetry; apply Z.ltb_ge; exact Hge)).
  - exists w. split; [reflexivity|lia].
  - unfold bind at 1. rewrite (still_queued_all _ _ Hall).
    (replace (_ <? max_jobs_running) with false
       by (symmetry; apply Z.ltb_ge; exact Hge)).
    unfold bind at 1, sleep, emit_event.
    match goal with |- context [InMemory.limit_jobs _ _ _ _ ?w1] =>
      destruct (IH w1) as (w' & E & Hp) end.
    exists w'. split; [exact E|].
    rewrite Hp. unfold InMemory.probes. cbn [log filter].
    rewrite probes_squeue. lia.
Qed.

Lemma in_memory_limit_jobs_blocks_witness :
  exists w',
    InMemory.limit_jobs InMemory.stuck_scheduler 3 ["1000"; "1001"]%string 2
      start = (Polling, w') /\
    InMemory.probes w' = (InMemory.probes start + 3 * 2)%nat.
Proof.
  apply (in_memory_limit_jobs_blocks InMemory.stuck_scheduler 3
           ["1000"; "1001"]%string 2 start).
  - intros t job. reflexivity.
  - vm_compute. discriminate.
Defined.

(** ** The driver of [cluster_query.py] *)

Lemma submit_chunks_never_probes (sch : InMemory.scheduler) (passes : nat)
    (total : Z) (output_dir : string) (cs : list (list string)) :
  forall (idx : Z) (job_queue : list string) (w : world),
    Forall (fun ch => ch <> []) cs ->
    Z.of_nat (length job_queue + length cs) <= InMemory.MAX_JOBS_RUNNING ->
    exists o w',
      InMemory.submit_chunks sch passes total output_dir idx cs job_queue w =
        (o, w') /\
      InMemory.probes w' = InMemory.probes w /\
      o <> Polling /\
      forall q, o = Done q ->
        exists new,
          q = job_queue ++ new /\
          submitted_handles w' = submitted_handles w ++ new /\
          length new = length cs.
Proof.
  induction cs as [|chunk rest IH]; intros idx job_queue w Hne Hlen.
  - exists (Done job_queue), w. cbn [InMemory.submit_chunks]. unfold ret.
    split; [reflexivity|]. split; [reflexivity|]. split; [discriminate|].
    intros q [= <-]. exists []. rewrite !app_nil_r. auto.
  - inversion Hne as [|? ? Hchunk Hrest]; subst.
    destruct (chunk_ends chunk Hchunk) as [E0 El].
    cbn [InMemory.submit_chunks].
    destruct chunk as [|x xs]; [congruence|].
    rewrite E0, El. unfold lift at 1 2. unfold bind at 1 2. unfold ret at 1 2.
    unfold bind at 1.
    unfold InMemory.create_query_job, bind at 1 2 3, emit_event at 1 2 3.
    unfold ret at 1. cbv beta iota zeta.
    unfold bind at 1.
    rewrite in_memory_limit_jobs_idle
      by (cbn [length] in Hlen; lia).
    unfold bind at 1, external at 1. cbv beta iota. cbn [now log].
    unfold bind at 1.
    match goal with |- context [lift (parse_job_id ?out)] =>
      destruct (parse_job_id out) as [e|job_id] end; unfold lift at 1.
    + unfold raise. eexists (Raised e), _. split; [reflexivity|].
      split; [reflexivity|]. split; [discriminate|]. discriminate.
    + unfold ret at 1. unfold bind at 1, emit_event at 1. cbn [now log].
      match goal with
      | |- context [InMemory.submit_chunks sch passes total output_dir
                      ?i rest ?q ?w1] =>
          destruct (IH i q w1 Hrest) as (o & w' & E & Hp & Hpoll & Hdone)
      end.
      { rewrite length_app. cbn [length] in *. lia. }
      exists o, w'. split; [exact E|]. split; [rewrite Hp; reflexivity|].
      split; [exact Hpoll|].
      intros q Hq. destruct (Hdone q Hq) as (new & -> & Hs & Hl).
      exists (job_id :: new). split; [rewrite <- app_assoc; reflexivity|].
      split; [|cbn [length]; lia].
      rewrite Hs. unfold submitted_handles. cbn [log rev].
      rewrite !flat_map_app. cbn [flat_map]. rewrite !app_nil_r.
      rewrite <- app_assoc. reflexivity.
Qed.

Lemma ceil_div_ceil_le (n k : nat) :
  (1 <= k)%nat -> (1 <= n)%nat -> (ceil_div n (ceil_div n k) <= k)%nat.
Proof.
  intros Hk Hn. pose proof (ceil_div_pos n k Hk Hn) as Hc.
  set (c := ceil_div n k) in *.
  assert (Hnc : (n <= k * c)%nat).
  { unfold c, ceil_div.
    pose proof (Nat.div_mod_eq (n + k - 1) k) as Hd.
    pose proof (Nat.mod_upper_bound (n + k - 1) k ltac:(lia)) as Hm. nia. }
  unfold ceil_div. apply Nat.lt_succ_r.
  apply Nat.Div0.div_lt_upper_bound. nia.
Qed.

(** With a target count between 1 and [MAX_JOBS_RUNNING] (the module's
    own [NUM_SUBGROUPS = 10] is one), the driver of [cluster_query.py]
    never runs [squeue] and is never held by the gate: it cuts a
    non-empty identifier list into at most [num_subgroups] chunks, its
    run ends whatever number of passes the gate is given, and when it
    returns, the list holds, in order, the handle of every chunk --
    exactly the handles it printed. *)
Theorem in_memory_submit_never_probes (sch : InMemory.scheduler)
    (passes : nat) (all_ids : list string) (num_subgroups : Z)
    (output_dir : string) (w : world) :
  all_ids <> [] ->
  1 <= num_subgroups <= InMemory.MAX_JOBS_RUNNING ->
  exists cs e w',
    InMemory.id_chunks all_ids num_subgroups = inr cs /\
    Z.of_nat (length cs) <= num_subgroups /\
    InMemory.submit_subgroup_jobs sch passes all_ids num_subgroups output_dir w
      = (e, w') /\
    InMemory.probes w' = InMemory.probes w /\
    e <> InMemory.InLoop /\
    forall q, e = InMemory.Finished q ->
      submitted_handles w' = submitted_handles w ++ q /\
      length q = length cs.
Proof.
  intros Hne [Hk Hmax].
  assert (Hn : (1 <= length all_ids)%nat)
    by (destruct all_ids; [congruence|cbn [length]; lia]).
  set (k := Z.to_nat num_subgroups).
  assert (Hk' : (1 <= k)%nat) by (unfold k; lia).
  pose proof (ceil_div_pos (length all_ids) k Hk' Hn) as Hc.
  assert (Hcs : InMemory.id_chunks all_ids num_subgroups =
                inr (chunks (ceil_div (length all_ids) k) all_ids)).
  { unfold InMemory.id_chunks.
    replace (num_subgroups =? 0) with false by (symmetry; apply Z.eqb_neq; lia).
    cbv zeta. replace num_subgroups with (Z.of_nat k) at 1 2 by (unfold k; lia).
    rewrite chunk_size_ceil by exact Hk'.
    rewrite chunk_list_chunks by lia. rewrite Nat2Z.id. reflexivity. }
  set (cs := chunks (ceil_div (length all_ids) k) all_ids) in *.
  assert (Hlen : (length cs <= k)%nat).
  { unfold cs. rewrite length_chunks by exact Hc.
    apply ceil_div_ceil_le; assumption. }
  destruct (submit_chunks_never_probes sch passes (Z.of_nat (length cs))
              output_dir cs 0 []
              (mkWorld (now w) (EnsureDir output_dir :: log w))
              (chunks_nonempty _ _))
    as (o & w' & E & Hp & Hpoll & Hdone).
  { cbn [length]. unfold k in Hlen. lia. }
  exists cs, (InMemory.ending_of o), w'.
  split; [exact Hcs|]. split; [unfold k in Hlen; lia|].
  split; [unfold InMemory.submit_subgroup_jobs; rewrite Hcs, E; reflexivity|].
  split; [rewrite Hp; reflexivity|].
  split; [destruct o; cbn; congruence|].
  intros q Hq. destruct o as [q0| |]; cbn in Hq; try discriminate.
  injection Hq as ->. destruct (Hdone q eq_refl) as (new & -> & Hs & Hl).
  cbn [app]. split; [|exact Hl].
  rewrite Hs. unfold submitted_handles. cbn [log rev].
  rewrite flat_map_app. cbn [flat_map]. rewrite app_nil_r. reflexivity.
Qed.

Lemma in_memory_submit_never_probes_witness :
  exists cs e w',
    InMemory.id_chunks (sample_ids 5) 2 = inr cs /\
    Z.of_nat (length cs) <= 2 /\
    InMemory.submit_subgroup_jobs InMemory.stuck_scheduler 0 (sample_ids 5) 2
      "out" start = (e, w') /\
    InMemory.probes w' = InMemory.probes start /\
    e <> InMemory.InLoop /\
    forall q, e = InMemory.Finished q ->
      submitted_handles w' = submitted_handles start ++ q /\
      length q = length cs.
Proof.
  apply (in_memory_submit_never_probes InMemory.stuck_scheduler 0
           (sample_ids 5) 2 "out" start).
  - vm_compute. discriminate.
  - vm_compute. split; discriminate.
Defined.

(** ** The gate and the driver of the second query *)

Lemma openalex_limit_jobs_round_eq (cl : cluster) (job_queue : list string)
    (max_jobs_running : Z) (w : world) :
  max_jobs_running <= Openalex.MAX_JOBS_RUNNING ->
  Openalex.limit_jobs_round cl job_queue max_jobs_running w =
  let q := pruned cl job_queue w in
  let w1 := probed cl job_queue w in
  let n := Z.of_nat (length q) in
  if n <? max_jobs_running then
    if free_slots (pg_stat cl (now w1)) >? 15
    then (Done (Release q), released n 15 (asked 15 w1))
    else (Done (Retry q), mkWorld (S (now w1)) (Sleep 30 :: PgQuery 15 :: log w1))
  else (Done (Retry q), mkWorld (now w1) (Sleep 30 :: log w1)).
Proof.
  unfold Openalex.MAX_JOBS_RUNNING. intros Hmax.
  unfold Openalex.limit_jobs_round. unfold bind at 1.
  rewrite still_running_run. cbv zeta.
  replace (_ <? max_jobs_running - 50) with false
    by (symmetry; apply Z.ltb_ge; lia).
  replace (_ <? max_jobs_running - 20) with false
    by (symmetry; apply Z.ltb_ge; lia).
  unfold bind at 1. unfold ret at 1.
  destruct (_ <? max_jobs_running).
  - unfold bind at 1, free_connections_exceed, external. cbv beta iota.
    cbn [now log]. destruct (free_slots _ >? 15); reflexivity.
  - reflexivity.
Qed.

(** In the second query the gate is called with a ceiling of 20, where
    its first two conditions cannot hold (they need fewer than -30 and
    fewer than 0 live jobs).  So whenever it returns, for any ceiling up
    to 20, it has released through condition 3: the live count is below
    the ceiling, the database had more than 15 free slots at the last
    query, the threshold 30 was never queried, and the delay was 15
    seconds. *)
Theorem openalex_limit_jobs_releases_by_condition_3 (cl : cluster)
    (rounds : nat) (job_queue : list string) (max_jobs_running : Z)
    (w : world) (q : list string) (w' : world) :
  max_jobs_running <= Openalex.MAX_JOBS_RUNNING ->
  Openalex.limit_jobs cl rounds job_queue max_jobs_running w = (Done q, w') ->
  exists (m : nat) (w0 : world),
    w' = released (Z.of_nat (length q)) 15 (asked 15 w0) /\
    free_slots (pg_stat cl (now w0)) > 15 /\
    Z.of_nat (length q) < max_jobs_running /\
    pg_queries w' = repeat 15 (S m) ++ pg_queries w.
Proof.
  intros Hmax. revert job_queue w.
  induction rounds as [|rounds IH]; intros job_queue w Hrun; [discriminate|].
  cbn [Openalex.limit_jobs] in Hrun. unfold bind at 1 in Hrun.
  rewrite (openalex_limit_jobs_round_eq cl job_queue max_jobs_running w Hmax)
    in Hrun.
  cbv zeta in Hrun.
  pose proof (pg_queries_probed cl job_queue w) as Hpg.
  destruct (Z.ltb_spec (Z.of_nat (length (pruned cl job_queue w)))
              max_jobs_running) as [Hlt|Hge].
  - destruct (free_slots (pg_stat cl (now (probed cl job_queue w))) >? 15)
      eqn:Efree.
    + unfold ret in Hrun. injection Hrun as <- <-.
      exists O, (probed cl job_queue w).
      split; [reflexivity|]. split; [apply Z.gtb_lt in Efree; lia|].
      split; [exact Hlt|].
      unfold pg_queries in *. cbn [released asked log flat_map app repeat].
      rewrite Hpg. reflexivity.
    + apply IH in Hrun. destruct Hrun as (m & w0 & -> & Hfree & Hlt' & Hq).
      exists (S m), w0. split; [reflexivity|]. split; [exact Hfree|].
      split; [exact Hlt'|]. rewrite Hq.
      unfold pg_queries in *. cbn [log flat_map app]. rewrite Hpg.
      change (15 :: flat_map _ (log w))
        with ([15] ++ flat_map
                (fun e => match e with PgQuery t => [t] | _ => [] end) (log w)).
      rewrite app_assoc. f_equal.
      change [15] with (repeat 15 1). rewrite <- repeat_app.
      f_equal. lia.
  - apply IH in Hrun. destruct Hrun as (m & w0 & -> & Hfree & Hlt' & Hq).
    exists m, w0. split; [reflexivity|]. split; [exact Hfree|].
    split; [exact Hlt'|]. rewrite Hq.
    unfold pg_queries in *. cbn [log flat_map app]. rewrite Hpg. reflexivity.
Qed.

Lemma openalex_limit_jobs_releases_by_condition_3_witness :
  exists (m : nat) (w0 : world),
    mkWorld 3 [Sleep 15; PrintJobsFinished 2; PgQuery 15;
               RunSqueue "1001"; RunSqueue "1000"] =
      released (Z.of_nat (length ["1000"; "1001"]%string)) 15 (asked 15 w0) /\
    free_slots (pg_stat roomy_cluster (now w0)) > 15 /\
    Z.of_nat (length ["1000"; "1001"]%string) < Openalex.MAX_JOBS_RUNNING /\
    pg_queries (mkWorld 3 [Sleep 15; PrintJobsFinished 2; PgQuery 15;
                           RunSqueue "1001"; RunSqueue "1000"]) =
      repeat 15 (S m) ++ pg_queries start.
Proof.
  apply (openalex_limit_jobs_releases_by_condition_3 roomy_cluster 1
           ["1000"; "1001"]%string Openalex.MAX_JOBS_RUNNING start).
  - vm_compute. discriminate.
  - vm_compute. reflexivity.
Defined.

Lemma submitted_scripts_quiet (t : nat) (e : event) (w : world) :
  match e with RunSbatch _ => False | _ => True end ->
  submitted_scripts (mkWorld t (e :: log w)) =
  submitted_scripts w.
Proof.
  intros He. unfold submitted_scripts. cbn [log rev].
  rewrite flat_map_app. destruct e; try contradiction; apply app_nil_r.
Qed.

Lemma submitted_scripts_probed (cl : cluster) (job_queue : list string)
    (w : world) :
  submitted_scripts (probed cl job_queue w) =
  submitted_scripts w.
Proof.
  revert w. induction job_queue as [|job rest IH]; intros w; [reflexivity|].
  rewrite probed_cons, IH. apply (submitted_scripts_quiet _ (RunSqueue job) w).
  exact I.
Qed.

Lemma submitted_scripts_limit_jobs (cl : cluster) (rounds : nat) :
  forall (job_queue : list string) (w : world),
    submitted_scripts
      (snd (Openalex.limit_jobs cl rounds job_queue Openalex.MAX_JOBS_RUNNING w))
    = submitted_scripts w.
Proof.
  induction rounds as [|rounds IH]; intros job_queue w; [reflexivity|].
  cbn [Openalex.limit_jobs]. unfold bind at 1.
  rewrite openalex_limit_jobs_round_eq by reflexivity. cbv zeta.
  pose proof (submitted_scripts_probed cl job_queue w) as Hp.
  set (w1 := probed cl job_queue w) in *.
  destruct (_ <? Openalex.MAX_JOBS_RUNNING).
  - destruct (free_slots _ >? 15).
    + unfold ret. cbn [snd]. rewrite <- Hp.
      unfold submitted_scripts, released, asked. cbn [log rev].
      rewrite !flat_map_app. cbn [flat_map]. rewrite !app_nil_r. reflexivity.
    + rewrite IH, <- Hp.
      unfold submitted_scripts. cbn [log rev].
      rewrite !flat_map_app. cbn [flat_map]. rewrite !app_nil_r. reflexivity.
  - rewrite IH, <- Hp.
    unfold submitted_scripts. cbn [log rev].
    rewrite !flat_map_app. cbn [flat_map]. rewrite !app_nil_r. reflexivity.
Qed.

Lemma openalex_submit_loop_scripts (cl : cluster) (rounds : nat)
    (num_subgroups : Z) (output_dir : string)
    (ranges : list (string * string)) :
  forall (idx : Z) (job_queue : list string) (w : world)
         (o : outcome (list string)) (w' : world),
    Openalex.submit_loop cl rounds num_subgroups output_dir idx ranges
      job_queue w = (o, w') ->
    exists m : nat,
      submitted_scripts w' =
      submitted_scripts w ++
        map Openalex.script_path_of
          (firstn m (Openalex.resubmitted idx (length ranges))) /\
      forall q, o = Done q ->
        firstn m (Openalex.resubmitted idx (length ranges)) =
        Openalex.resubmitted idx (length ranges).
Proof.
  induction ranges as [|[min_id max_id] rest IH];
    intros idx job_queue w o w' Hrun.
  - injection Hrun as <- <-. exists O. cbn. rewrite app_nil_r. auto.
  - cbn [Openalex.submit_loop length] in Hrun.
    unfold Openalex.resubmitted. cbn [length Openalex.enumerated filter].
    fold (Openalex.resubmitted (idx + 1) (length rest)).
    destruct (Openalex.is_listed idx); cbn [negb] in Hrun;
      [|eapply IH; exact Hrun].
    unfold bind at 1 in Hrun.
    unfold Openalex.create_query_job, bind at 1 2 3, emit_event at 1 2 3
      in Hrun.
    unfold ret at 1 in Hrun. cbv beta iota zeta in Hrun.
    fold (Openalex.script_path_of idx) in Hrun.
    unfold bind at 1 in Hrun.
    match type of Hrun with
    | context [Openalex.limit_jobs cl rounds job_queue _ ?w1] =>
      pose proof (submitted_scripts_limit_jobs cl rounds job_queue w1) as Hg;
      destruct (Openalex.limit_jobs cl rounds job_queue
                  Openalex.MAX_JOBS_RUNNING w1) as [[q1|e|] w2]
    end; cbn [snd] in Hg;
      unfold submitted_scripts in Hg; cbn [log rev] in Hg;
      rewrite !flat_map_app in Hg; cbn [flat_map] in Hg;
      rewrite !app_nil_r in Hg;
      fold (submitted_scripts w2) in Hg;
      fold (submitted_scripts w) in Hg.
    2,3: injection Hrun as <- <-; exists O; cbn [firstn map];
         rewrite app_nil_r; split; [exact Hg|discriminate].
    unfold bind at 1, run_sbatch, external in Hrun. cbv beta iota in Hrun.
    unfold bind at 1 in Hrun.
    destruct (parse_job_id _) as [e|job_id]; unfold lift at 1 in Hrun.
    + unfold raise in Hrun. injection Hrun as <- <-.
      exists 1%nat. cbn [firstn map]. split; [|discriminate].
      unfold submitted_scripts at 1. cbn [log rev].
      rewrite flat_map_app. cbn [flat_map]. rewrite app_nil_r.
      fold (submitted_scripts w2). rewrite Hg. reflexivity.
    + unfold ret at 1 in Hrun. unfold bind at 1, emit_event at 1 in Hrun.
      cbn [now log] in Hrun.
      apply IH in Hrun. destruct Hrun as (m & Hs & Hd).
      exists (S m). cbn [firstn map]. split.
      * rewrite Hs. unfold submitted_scripts at 1. cbn [log rev].
        rewrite !flat_map_app. cbn [flat_map]. rewrite !app_nil_r.
        fold (submitted_scripts w2). rewrite Hg.
        rewrite <- app_assoc. reflexivity.
      * intros q Hq. f_equal. eapply Hd. exact Hq.
Qed.

Lemma enumerated_ge (n : nat) :
  forall (idx x : Z), In x (Openalex.enumerated idx n) -> idx <= x.
Proof.
  induction n as [|n IH]; intros idx x Hin; [contradiction|].
  destruct Hin as [<-|Hin]; [lia|]. apply IH in Hin. lia.
Qed.

Lemma enumerated_NoDup (n : nat) :
  forall idx : Z, NoDup (Openalex.enumerated idx n).
Proof.
  induction n as [|n IH]; intros idx; constructor; [|apply IH].
  intros Hin. apply enumerated_ge in Hin. lia.
Qed.

Lemma resubmitted_le_98 (n : nat) :
  (length (Openalex.resubmitted 1 n) <= 98)%nat.
Proof.
  change 98%nat with (length (tl Openalex.listed)).
  apply NoDup_incl_length.
  - apply NoDup_filter, enumerated_NoDup.
  - intros x Hin. apply filter_In in Hin. destruct Hin as [Hin Hl].
    apply enumerated_ge in Hin.
    apply existsb_exists in Hl. destruct Hl as (y & Hy & E).
    apply Z.eqb_eq in E. subst y.
    assert (Hs : Openalex.listed = 0 :: tl Openalex.listed) by reflexivity.
    rewrite Hs in Hy. destruct Hy as [H0|Hy]; [lia|exact Hy].
Qed.

(** The driver of the second query is a re-run of listed partitions.
    Whatever the index file, the cluster and the way the run ends, the
    scripts it hands to [sbatch] are those of the first [m] partitions
    of its list that exist, in ascending order; all of them when it
    returns.  The entry 0 of the list can never match an index counted
    from 1, so there are never more than 98 submissions. *)
Theorem openalex_submits_listed_partitions_only (cl : cluster) (rounds : nat)
    (index_csv : csv_file) (num_subgroups : Z) (output_dir : string)
    (w : world) :
  let run :=
    Openalex.submit_subgroup_jobs cl rounds index_csv num_subgroups
      output_dir w in
  let listed_here :=
    Openalex.resubmitted 1
      (length (yielded (iter_id_ranges index_csv num_subgroups))) in
  (length listed_here <= 98)%nat /\
  exists m : nat,
    submitted_scripts (snd run) =
      submitted_scripts w ++
      map Openalex.script_path_of (firstn m listed_here) /\
    forall q, fst run = Done q -> firstn m listed_here = listed_here.
Proof.
  cbv zeta. split; [apply resubmitted_le_98|].
  unfold Openalex.submit_subgroup_jobs, bind, emit_event.
  cbv beta iota zeta.
  destruct (Openalex.submit_loop cl rounds num_subgroups output_dir 1
              (yielded (iter_id_ranges index_csv num_subgroups)) []
              (mkWorld (now w) (EnsureDir output_dir :: log w)))
    as [o w1] eqn:Eloop.
  destruct (openalex_submit_loop_scripts cl rounds num_subgroups output_dir
              _ _ _ _ _ _ Eloop) as (m & Hs & Hd).
  exists m.
  rewrite (submitted_scripts_quiet (now w) (EnsureDir output_dir) w I) in Hs.
  destruct o as [q1|e|]; cbn [fst snd] in *.
  - destruct (raised (iter_id_ranges index_csv num_subgroups));
      cbn [fst snd]; (split; [exact Hs|]).
    + discriminate.
    + intros q _. eapply Hd. reflexivity.
  - split; [exact Hs|discriminate].
  - split; [exact Hs|discriminate].
Qed.

Lemma csv_name_next (n : nat) :
  (n < 999)%nat ->
  str_lt (csv_name (Z.of_nat n)) (csv_name (Z.of_nat n + 1)).
Proof.
  intros Hn.
  assert (Hall : forallb (fun n => String.ltb (csv_name (Z.of_nat n))
                                     (csv_name (Z.of_nat n + 1)))
                   (seq 0 999) = true) by (vm_compute; reflexivity).
  rewrite forallb_forall in Hall. apply Hall, in_seq. lia.
Qed.

(** Up to partition 999 the zero padding of [{idx:03d}] makes the
    lexicographic order of the names the numeric order of the indexes. *)
Lemma csv_name_lt (i j : Z) :
  0 <= i < j -> j < 1000 -> str_lt (csv_name i) (csv_name j).
Proof.
  intros Hij Hj.
  assert (Hd : forall d : nat,
             forall i : Z, 0 <= i -> i + 1 + Z.of_nat d < 1000 ->
             str_lt (csv_name i) (csv_name (i + 1 + Z.of_nat d))).
  { clear. induction d as [|d IH]; intros i Hi Hlt.
    - replace (i + 1 + Z.of_nat 0) with (Z.of_nat (Z.to_nat i) + 1) by lia.
      replace i with (Z.of_nat (Z.to_nat i)) at 1 by lia.
      apply csv_name_next. lia.
    - eapply str_lt_trans; [apply (IH i Hi); lia|].
      replace (i + 1 + Z.of_nat (S d))
        with (Z.of_nat (Z.to_nat (i + 1 + Z.of_nat d)) + 1) by lia.
      replace (i + 1 + Z.of_nat d)
        with (Z.of_nat (Z.to_nat (i + 1 + Z.of_nat d))) at 1 by lia.
      apply csv_name_next. lia. }
  replace j with (i + 1 + Z.of_nat (Z.to_nat (j - i - 1))) by lia.
  apply Hd; lia.
Qed.

(** From partition 1000 on the padding is used up: the name of a
    partition from 1000 to 9989 comes before the name of the partition
    one above its first three digits. *)
Lemma csv_name_gt (j : Z) :
  1000 <= j < 9990 -> str_lt (csv_name j) (csv_name (j / 10 + 1)).
Proof.
  intros Hj.
  assert (Hall : forallb (fun n => let j := 1000 + Z.of_nat n in
                                   String.ltb (csv_name j)
                                     (csv_name (j / 10 + 1)))
                   (seq 0 (Z.to_nat 8990)) = true) by (vm_compute; reflexivity).
  rewrite forallb_forall in Hall.
  specialize (Hall (Z.to_nat (j - 1000))). cbv zeta in Hall.
  replace (1000 + Z.of_nat (Z.to_nat (j - 1000))) with j in Hall by lia.
  apply Hall, in_seq. lia.
Qed.

(** ** Merging the result files *)

Lemma insert_perm (x : string) (l : list string) :
  Permutation (Merge.insert x l) (x :: l).
Proof.
  induction l as [|y l IH]; cbn [Merge.insert]; [reflexivity|].
  destruct (String.leb x y); [reflexivity|].
  rewrite IH. apply perm_swap.
Qed.

Lemma sorted_perm (l : list string) : Permutation (Merge.sorted l) l.
Proof.
  induction l as [|x l IH]; cbn [Merge.sorted fold_right]; [reflexivity|].
  rewrite insert_perm. apply perm_skip. exact IH.
Qed.

Lemma insert_ascending (x : string) (l : list string) :
  Sorted str_le l -> Sorted str_le (Merge.insert x l).
Proof.
  induction l as [|y l IH]; intros Hs; cbn [Merge.insert].
  - repeat constructor.
  - destruct (String.leb x y) eqn:E.
    + constructor; [exact Hs|constructor; exact E].
    + inversion Hs as [|? ? Hs' Hhd]; subst.
      constructor; [apply IH; exact Hs'|].
      assert (Hyx : str_le y x).
      { destruct (String.leb_total x y) as [H|H]; [congruence|exact H]. }
      destruct l as [|z l]; cbn [Merge.insert].
      * constructor. exact Hyx.
      * destruct (String.leb x z); constructor; [exact Hyx|].
        inversion Hhd; assumption.
Qed.

Lemma sorted_ascending (l : list string) :
  StronglySorted str_le (Merge.sorted l).
Proof.
  apply Sorted_StronglySorted; [exact str_le_trans|].
  induction l as [|x l IH]; cbn [Merge.sorted fold_right]; [constructor|].
  apply insert_ascending. exact IH.
Qed.

Lemma ascending_unique (l : list string) :
  forall l' : list string,
    StronglySorted str_le l -> StronglySorted str_le l' ->
    Permutation l l' -> l = l'.
Proof.
  induction l as [|x l IH]; intros [|y l'] Hs Hs' Hp.
  - reflexivity.
  - apply Permutation_nil in Hp. discriminate.
  - symmetry in Hp. apply Permutation_nil in Hp. discriminate.
  - apply StronglySorted_inv in Hs, Hs'.
    destruct Hs as [Hs Hx], Hs' as [Hs' Hy].
    rewrite Forall_forall in Hx, Hy.
    assert (Hxy : x = y).
    { assert (Hin : In x (y :: l'))
        by (eapply Permutation_in; [exact Hp|left; reflexivity]).
      assert (Hin' : In y (x :: l))
        by (eapply Permutation_in; [symmetry; exact Hp|left; reflexivity]).
      destruct Hin as [->|Hin]; [reflexivity|].
      destruct Hin' as [->|Hin']; [reflexivity|].
      apply String.leb_antisym; [apply Hx|apply Hy]; assumption. }
    subst y. f_equal. apply IH; try assumption.
    eapply Permutation_cons_inv. exact Hp.
Qed.

Lemma filter_perm {A : Type} (f : A -> bool) (l l' : list A) :
  Permutation l l' -> Permutation (filter f l) (filter f l').
Proof.
  induction 1 as [|x l l' _ IH|x y l|l l' l'' _ IH1 _ IH2]; cbn [filter].
  - constructor.
  - destruct (f x); [apply perm_skip|]; exact IH.
  - destruct (f x), (f y); try reflexivity. apply perm_swap.
  - etransitivity; eassumption.
Qed.

Lemma open_file_In (d : Merge.directory) (e : string * csv_file) :
  NoDup (Merge.listdir d) -> In e d ->
  Merge.open_file d (fst e) = Some (snd e).
Proof.
  unfold Merge.open_file, Merge.listdir.
  induction d as [|a d IH]; intros Hnd Hin; [contradiction|].
  cbn [map] in Hnd. inversion Hnd as [|? ? Hnotin Hnd']; subst.
  cbn [find]. destruct (String.eqb_spec (fst a) (fst e)) as [E|E].
  - destruct Hin as [->|Hin]; [reflexivity|].
    exfalso. apply Hnotin. rewrite E. apply in_map. exact Hin.
  - destruct Hin as [->|Hin]; [congruence|]. apply IH; assumption.
Qed.

Lemma csv_names_entries (d : Merge.directory) :
  filter (fun f => Merge.endswith f ".csv") (Merge.listdir d) =
  map fst (Merge.csv_entries d).
Proof.
  unfold Merge.listdir, Merge.csv_entries.
  induction d as [|e d IH]; [reflexivity|].
  cbn [map filter]. destruct (Merge.endswith (fst e) ".csv");
    cbn [map]; rewrite IH; reflexivity.
Qed.

(** The loop over files that all have a header row. *)
Lemma merge_loop_app (d : Merge.directory) (files : Merge.directory)
    (more : list string) :
  NoDup (Merge.listdir d) ->
  incl files d ->
  Forall (fun e => snd e <> []) files ->
  forall (header_written : bool) (out : list row),
    Merge.merge_loop d (map fst files ++ more) header_written out =
    Merge.merge_loop d more
      (match files with [] => header_written | _ => true end)
      (out ++
       (if header_written then []
        else match files with
             | [] => []
             | e :: _ => [hd [] (snd e)]
             end) ++
       flat_map Merge.data_rows files).
Proof.
  intros Hnd. induction files as [|e files IH]; intros Hincl Hne hw out.
  - cbn. destruct hw; rewrite !app_nil_r; reflexivity.
  - inversion Hne as [|? ? He Hne']; subst.
    cbn [map app Merge.merge_loop].
    rewrite (open_file_In d e Hnd) by (apply Hincl; left; reflexivity).
    cbn [flat_map]. unfold Merge.data_rows at 1.
    destruct (snd e) as [|header rows] eqn:Ee; [exfalso; apply He; exact Ee|].
    rewrite IH; [|intros x Hx; apply Hincl; right; exact Hx|exact Hne'].
    cbn [hd tl app].
    replace (match files with [] => true | _ :: _ => true end) with true
      by (destruct files; reflexivity).
    f_equal. destruct hw; cbn [app]; rewrite <- ?app_assoc; reflexivity.
Qed.

Lemma merge_loop_headers (d : Merge.directory) (files : Merge.directory) :
  NoDup (Merge.listdir d) ->
  incl files d ->
  Forall (fun e => snd e <> []) files ->
  forall (header_written : bool) (out : list row),
    Merge.merge_loop d (map fst files) header_written out =
    (out ++
       (if header_written then []
        else match files with
             | [] => []
             | e :: _ => [hd [] (snd e)]
             end) ++
       flat_map Merge.data_rows files,
     None).
Proof.
  intros Hnd Hincl Hne hw out.
  rewrite <- (app_nil_r (map fst files)).
  rewrite merge_loop_app by assumption. reflexivity.
Qed.

Lemma by_name_ascending (files : Merge.directory) :
  Merge.by_name files -> StronglySorted str_le (map fst files).
Proof.
  unfold Merge.by_name. induction 1 as [|e files _ IH Hall]; cbn [map];
    constructor; [exact IH|].
  rewrite Forall_forall in *. intros x Hx.
  apply in_map_iff in Hx. destruct Hx as (y & <- & Hy). apply Hall, Hy.
Qed.

(** The names the loop visits are those of the [*.csv] entries in
    ascending order, however they are arranged. *)
Lemma sorted_names (d files : Merge.directory) :
  Permutation files (Merge.csv_entries d) ->
  Merge.by_name files ->
  Merge.sorted (filter (fun f => Merge.endswith f ".csv") (Merge.listdir d)) =
  map fst files.
Proof.
  intros Hperm Hby. rewrite csv_names_entries.
  apply ascending_unique.
  - apply sorted_ascending.
  - apply by_name_ascending. exact Hby.
  - rewrite sorted_perm. apply Permutation_map. symmetry. exact Hperm.
Qed.

Lemma sorted_entries (d : Merge.directory) :
  NoDup (Merge.listdir d) ->
  exists files : Merge.directory,
    Permutation files (Merge.csv_entries d) /\
    Merge.by_name files /\
    Merge.sorted (filter (fun f => Merge.endswith f ".csv") (Merge.listdir d)) =
    map fst files.
Proof.
  intros Hnd. rewrite csv_names_entries.
  set (names := Merge.sorted (map fst (Merge.csv_entries d))).
  pose proof (sorted_perm (map fst (Merge.csv_entries d))) as Hp.
  fold names in Hp.
  destruct (Permutation_map_inv _ _ Hp) as (files & Hfiles & Hperm).
  exists files. split; [symmetry; exact Hperm|]. split; [|exact Hfiles].
  pose proof (sorted_ascending (map fst (Merge.csv_entries d))) as Hs.
  fold names in Hs. rewrite Hfiles in Hs. clear -Hs.
  unfold Merge.by_name. induction files as [|e files IH]; [constructor|].
  cbn [map] in Hs. apply StronglySorted_inv in Hs. destruct Hs as [Hs Hall].
  constructor; [apply IH; exact Hs|].
  rewrite Forall_forall in *. intros x Hx. apply Hall, in_map, Hx.
Qed.

(** The merge loses no row and repeats none.  When the names in the
    directory are distinct and every file named [*.csv] has a header
    row, [merge_csv_files] ends without an exception and the output is
    one header -- that of the file first in name order -- followed by
    the data rows of every [*.csv] file, file after file in ascending
    order of the names; files with other names are not read. *)
Theorem merge_csv_files_keeps_every_row (d : Merge.directory) :
  NoDup (Merge.listdir d) ->
  Merge.csv_entries d <> [] ->
  Forall (fun e => snd e <> []) (Merge.csv_entries d) ->
  exists (name : string) (header : row) (rows : list row)
         (rest : Merge.directory),
    let files := (name, header :: rows) :: rest in
    Permutation files (Merge.csv_entries d) /\
    Merge.by_name files /\
    Merge.merge_csv_files d =
      Merge.mkResult [Merge.Merging; Merge.Merged]
        (Some (header :: flat_map Merge.data_rows files)) None.
Proof.
  intros Hnd Hsome Hall.
  destruct (sorted_entries d Hnd) as (files & Hperm & Hby & Hnames).
  assert (Hincl : incl files d).
  { intros x Hx. eapply Permutation_in in Hx; [|exact Hperm].
    unfold Merge.csv_entries in Hx. apply filter_In in Hx. tauto. }
  assert (Hne : Forall (fun e => snd e <> []) files).
  { rewrite Forall_forall in *. intros x Hx. apply Hall.
    eapply Permutation_in; [exact Hperm|exact Hx]. }
  destruct files as [|[name content] rest].
  { apply Permutation_nil in Hperm. congruence. }
  destruct content as [|header rows].
  { inversion Hne as [|? ? Hc _]; subst. cbn in Hc. congruence. }
  exists name, header, rows, rest. cbv zeta.
  split; [exact Hperm|]. split; [exact Hby|].
  unfold Merge.merge_csv_files. cbv zeta. rewrite Hnames.
  rewrite (merge_loop_headers d _ Hnd Hincl Hne false []).
  cbn [map app hd snd]. reflexivity.
Qed.

Lemma merge_csv_files_keeps_every_row_witness :
  exists (name : string) (header : row) (rows : list row)
         (rest : Merge.directory),
    let files := (name, header :: rows) :: rest in
    Permutation files (Merge.csv_entries Merge.two_results) /\
    Merge.by_name files /\
    Merge.merge_csv_files Merge.two_results =
      Merge.mkResult [Merge.Merging; Merge.Merged]
        (Some (header :: flat_map Merge.data_rows files)) None.
Proof.
  apply (merge_csv_files_keeps_every_row Merge.two_results).
  - repeat constructor; cbn; intuition discriminate.
  - vm_compute. discriminate.
  - repeat constructor; cbn; discriminate.
Defined.

Lemma merge_loop_ext (d d' : Merge.directory) (files : list string) :
  (forall f, In f files -> Merge.open_file d f = Merge.open_file d' f) ->
  forall (header_written : bool) (out : list row),
    Merge.merge_loop d files header_written out =
    Merge.merge_loop d' files header_written out.
Proof.
  induction files as [|f files IH]; intros Hext hw out; [reflexivity|].
  cbn [Merge.merge_loop]. rewrite <- (Hext f) by (left; reflexivity).
  destruct (Merge.open_file d f) as [[|header rows]|]; try reflexivity.
  apply IH. intros g Hg. apply Hext. right. exact Hg.
Qed.

(** The result does not depend on the order in which [os.listdir]
    returns the names: two listings of the same directory (distinct
    names, the same files) give the same output, the same printed lines
    and the same exception. *)
Theorem merge_csv_files_any_listing_order (d d' : Merge.directory) :
  NoDup (Merge.listdir d) ->
  Permutation d d' ->
  Merge.merge_csv_files d = Merge.merge_csv_files d'.
Proof.
  intros Hnd Hperm.
  assert (Hnd' : NoDup (Merge.listdir d')).
  { eapply Permutation_NoDup; [|exact Hnd].
    apply Permutation_map. exact Hperm. }
  assert (Hnames :
    Merge.sorted (filter (fun f => Merge.endswith f ".csv") (Merge.listdir d)) =
    Merge.sorted (filter (fun f => Merge.endswith f ".csv") (Merge.listdir d'))).
  { apply ascending_unique; try apply sorted_ascending.
    rewrite !sorted_perm. apply filter_perm, Permutation_map. exact Hperm. }
  unfold Merge.merge_csv_files. cbv zeta. rewrite <- Hnames.
  rewrite (merge_loop_ext d d'); [reflexivity|].
  intros f Hf.
  eapply Permutation_in in Hf; [|apply sorted_perm].
  apply filter_In in Hf. destruct Hf as [Hf _].
  unfold Merge.listdir in Hf. apply in_map_iff in Hf.
  destruct Hf as (e & <- & He).
  rewrite (open_file_In d e Hnd He).
  rewrite (open_file_In d' e Hnd'); [reflexivity|].
  eapply Permutation_in; [exact Hperm|exact He].
Qed.

Lemma merge_csv_files_any_listing_order_witness :
  Merge.merge_csv_files Merge.two_results =
  Merge.merge_csv_files (rev Merge.two_results).
Proof.
  apply (merge_csv_files_any_listing_order Merge.two_results
           (rev Merge.two_results)).
  - repeat constructor; cbn; intuition discriminate.
  - apply Permutation_rev.
Defined.

(** A result file with no row at all stops the merge.  When the
    [*.csv] files in name order are [before], then an empty file, then
    [after], and the files of [before] have a header row,
    [next(reader)] raises [StopIteration] at the empty file: the call
    ends with that exception, the closing success line is not printed,
    and the output file is left holding the merge of [before] only --
    nothing of [after], and nothing at all when the empty file comes
    first. *)
Theorem merge_csv_files_stops_at_empty_file (d : Merge.directory)
    (before : Merge.directory) (name : string) (after : Merge.directory) :
  NoDup (Merge.listdir d) ->
  Permutation (before ++ (name, []) :: after) (Merge.csv_entries d) ->
  Merge.by_name (before ++ (name, []) :: after) ->
  Forall (fun e => snd e <> []) before ->
  Merge.merge_csv_files d =
    Merge.mkResult [Merge.Merging]
      (Some match before with
            | [] => []
            | e :: _ => hd [] (snd e) :: flat_map Merge.data_rows before
            end)
      (Some Merge.StopIteration).
Proof.
  intros Hnd Hperm Hby Hne.
  assert (Hincl : incl (before ++ (name, []) :: after) d).
  { intros x Hx. eapply Permutation_in in Hx; [|exact Hperm].
    unfold Merge.csv_entries in Hx. apply filter_In in Hx. tauto. }
  unfold Merge.merge_csv_files. cbv zeta.
  rewrite (sorted_names d _ Hperm Hby).
  rewrite map_app. cbn [map fst].
  rewrite merge_loop_app;
    [|exact Hnd|intros x Hx; apply Hincl, in_or_app; left; exact Hx|exact Hne].
  cbn [Merge.merge_loop].
  assert (Hopen : Merge.open_file d name = Some []).
  { apply (open_file_In d (name, []) Hnd).
    apply Hincl, in_or_app. right. left. reflexivity. }
  rewrite Hopen.
  destruct before as [|e before]; reflexivity.
Qed.

Lemma merge_csv_files_stops_at_empty_file_witness :
  Merge.merge_csv_files Merge.with_empty_result =
    Merge.mkResult [Merge.Merging]
      (Some [["id"; "year"]; ["W1"; "1999"]; ["W2"; "2000"]]%string)
      (Some Merge.StopIteration).
Proof.
  apply (merge_csv_files_stops_at_empty_file Merge.with_empty_result
           [("subgroup_001.csv",
             [["id"; "year"]; ["W1"; "1999"]; ["W2"; "2000"]])]%string
           "subgroup_002.csv"
           [("subgroup_003.csv", [["id"; "year"]; ["W3"; "2001"]])]%string).
  - repeat constructor; cbn; intuition discriminate.
  - cbn. apply Permutation_rev.
  - repeat constructor.
  - repeat constructor; cbn; discriminate.
Defined.

(** ** The order in which the result files are merged *)

(** Up to partition 999 the merge follows the partitions.  For result
    files of distinct partitions below 1000, in whatever order
    [os.listdir] returns their names, [sorted] puts them in the order of
    their indexes: the zero padding of [f"subgroup_{idx:03d}.csv"] makes
    the order of the names the order of the numbers. *)
Theorem merge_order_follows_partitions_below_1000 (idxs : list Z)
    (listing : list string) :
  StronglySorted Z.lt idxs ->
  Forall (fun i => 0 <= i < 1000) idxs ->
  Permutation listing (map csv_name idxs) ->
  Merge.sorted listing = map csv_name idxs.
Proof.
  intros Hs Hall Hperm. apply ascending_unique.
  - apply sorted_ascending.
  - clear listing Hperm.
    induction Hs as [|i idxs Hs IH Hi]; cbn [map]; [constructor|].
    inversion Hall as [|? ? Hi0 Hall']; subst.
    constructor; [apply IH; exact Hall'|].
    rewrite Forall_forall in *. intros x Hx.
    apply in_map_iff in Hx. destruct Hx as (j & <- & Hj).
    apply str_lt_le, csv_name_lt; [specialize (Hi j Hj); lia|].
    specialize (Hall' j Hj). lia.
  - rewrite sorted_perm. exact Hperm.
Qed.

Lemma merge_order_follows_partitions_below_1000_witness :
  Merge.sorted [csv_name 10; csv_name 999; csv_name 9] =
  map csv_name [9; 10; 999].
Proof.
  apply (merge_order_follows_partitions_below_1000 [9; 10; 999]
           [csv_name 10; csv_name 999; csv_name 9]).
  - repeat constructor; lia.
  - repeat constructor; lia.
  - cbn [map]. symmetry.
    apply (Permutation_cons_append [csv_name 10; csv_name 999] (csv_name 9)).
Defined.

(** From partition 1000 on it does not.  Each result file of a
    partition from 1000 to 9989 is sorted before the file of some
    partition with a smaller index, so with the 10000 partitions of the
    driver [merge_csv_files] does not write the rows in partition
    order. *)
Theorem merge_order_breaks_from_1000 (j : Z) :
  1000 <= j < 9990 ->
  exists i : Z,
    0 <= i < j /\
    Merge.sorted [csv_name i; csv_name j] = [csv_name j; csv_name i].
Proof.
  intros Hj. exists (j / 10 + 1). split.
  { pose proof (Z.div_mod j 10 ltac:(lia)) as Hd.
    pose proof (Z.mod_pos_bound j 10 ltac:(lia)) as Hm. lia. }
  pose proof (csv_name_gt j Hj) as Hlt.
  unfold Merge.sorted. cbn [fold_right Merge.insert].
  unfold str_lt, String.ltb in Hlt. unfold String.leb.
  rewrite String.compare_antisym.
  destruct (String.compare (csv_name j) (csv_name (j / 10 + 1)));
    try discriminate.
  reflexivity.
Qed.

Lemma merge_order_breaks_from_1000_witness :
  exists i : Z,
    0 <= i < 1000 /\
    Merge.sorted [csv_name i; csv_name 1000] = [csv_name 1000; csv_name i].
Proof.
  apply (merge_order_breaks_from_1000 1000). lia.
Defined.
